(** * sticker: a ticker that starts at a scheduled point in time

    A shallow embedding of package [sticker] (ScheduledTicker) and the
    properties of its next-fire computation, its public operations and its
    control loop.

    The embedding follows the revision of the package that re-checks the stop
    channel in the timer callback and delivers through [sendTime]; the older
    revision, where it differs, is kept in [Module Rev0]. *)

From Stdlib Require Import ZArith Lia Bool.
From stdpp Require Import base list strings.

Open Scope Z_scope.

(** ** Results of calls that may panic *)

Inductive Result (A : Type) : Type :=
| Ok (a : A)
| Panic (msg : string).
Arguments Ok {A} a.
Arguments Panic {A} msg.

(** ** Package time, as far as the ticker uses it

    A [time.Time] is an instant on one timeline, counted in nanoseconds from
    Go's zero time (January 1, year 1, UTC), so that the zero value of
    [time.Time] is [0].  The wall clock and the monotonic clock are identified
    and the location ([UTC()]) does not change the instant.  A
    [time.Duration] is an int64 count of nanoseconds. *)

Definition Time := Z.
Definition Duration := Z.

Definition zeroTime : Time := 0.

Definition minDuration : Duration := - 2 ^ 63.
Definition maxDuration : Duration := 2 ^ 63 - 1.

(** int64 arithmetic wraps around. *)
Definition wrap64 (z : Z) : Z := (z + 2 ^ 63) mod 2 ^ 64 - 2 ^ 63.

Definition in_int64 (z : Z) : Prop := minDuration <= z <= maxDuration.

Module Dur.

Definition add (a b : Duration) : Duration := wrap64 (a + b).

Definition mul (a b : Duration) : Duration := wrap64 (a * b).

(** Integer division truncates toward zero and panics on a zero divisor. *)
Definition div (a b : Duration) : Result Duration :=
  if b =? 0 then Panic "runtime error: integer divide by zero"
  else Ok (wrap64 (Z.quot a b)).

End Dur.

(** [t.Sub(u)]: the difference, saturated to the range of a Duration. *)
Definition Time_Sub (t u : Time) : Duration :=
  if t - u <? minDuration then minDuration
  else if maxDuration <? t - u then maxDuration
  else t - u.

Definition Time_Add (t : Time) (d : Duration) : Time := t + d.

Definition Time_Before (t u : Time) : bool := t <? u.

(** ** The clock

    Every call of [time.Now] consumes one reading of the clock. *)

Record Clock : Type := mkClock {
  wall : nat -> Time;
  reads : nat
}.

Definition reading (c : Clock) (k : nat) : Time := wall c (reads c + k)%nat.

Definition monotone (c : Clock) : Prop :=
  forall i j : nat, (i <= j)%nat -> wall c i <= wall c j.

Definition M (A : Type) : Type := Clock -> Result (A * Clock).

Definition ret {A} (a : A) : M A := fun c => Ok (a, c).

Definition bind {A B} (m : M A) (k : A -> M B) : M B :=
  fun c => match m c with
           | Ok (a, c') => k a c'
           | Panic msg => Panic msg
           end.

Definition lift {A} (r : Result A) : M A :=
  fun c => match r with
           | Ok a => Ok (a, c)
           | Panic msg => Panic msg
           end.

Notation "x <- m ;; k" := (bind m (fun x => k))
  (at level 100, m at next level, right associativity).

Definition time_Now : M Time :=
  fun c => Ok (wall c (reads c), mkClock (wall c) (S (reads c))).

Definition time_Since (t : Time) : M Duration :=
  now <- time_Now ;; ret (Time_Sub now t).

Definition time_Until (t : Time) : M Duration :=
  now <- time_Now ;; ret (Time_Sub t now).

(** ** nextRun

    [nextRun] calculates the next point in time starting from [firstStart]
    re-occurring at [interval]. *)

Definition nextRun (firstStart : Time) (interval : Duration) : M Time :=
  now <- time_Now ;;
  if Time_Before now firstStart then ret firstStart
  else
    elapsed <- time_Since firstStart ;;
    pastIterations <- lift (Dur.div elapsed interval) ;;
    ret (Time_Add firstStart (Dur.mul (Dur.add pastIterations 1) interval)).

(** The value a call returns, if it returns. *)
Definition value {A} (r : Result (A * Clock)) : option A :=
  match r with
  | Ok (a, _) => Some a
  | Panic _ => None
  end.

(** A clock whose readings start at [t0] and advance by [dt] each. *)
Definition clockFrom (t0 dt : Z) : Clock :=
  mkClock (fun n => t0 + dt * Z.of_nat n) 0.

(** ** Channels

    [Chan] is a buffered [chan time.Time]: its capacity, the values waiting in
    its buffer (oldest first) and whether it has been closed. *)

Record Chan : Type := mkChan {
  cap : nat;
  buf : list Time;
  closed : bool
}.

(** [make(chan time.Time, n)] *)
Definition make_chan (n : nat) : Chan := mkChan n [] false.

Definition has_room (c : Chan) : bool := (length (buf c) <? cap c)%nat.

(** [sendTime]: a select with the send as its only case and an empty
    default.  It never blocks: the tick goes into the buffer when there is
    room and is dropped otherwise.  (A send on a closed channel panics.) *)
Definition sendTime (ticks : Chan) (tick : Time) : Result Chan :=
  if closed ticks then Panic "send on closed channel"
  else if has_room ticks
       then Ok (mkChan (cap ticks) (buf ticks ++ [tick]) (closed ticks))
       else Ok ticks.

(** An unbuffered channel: closed or not, and the values of the senders
    parked on it, in arrival order. *)
Record SyncChan : Type := mkSync {
  s_closed : bool;
  s_senders : list Time
}.

Definition make_sync : SyncChan := mkSync false [].

(** ** The ticker and its control loop *)

(** [type ScheduledTicker struct]; the exported field [C] is the channel
    [ticks] itself. *)
Record ScheduledTicker : Type := mkST {
  ticks : Chan;
  reset : SyncChan;
  stop : SyncChan;
  interval : Duration
}.

Definition C (t : ScheduledTicker) : Chan := ticks t.

(** The runtime's timers.  A [time.Timer] made by [time.AfterFunc] is armed
    until it fires or is stopped; a [time.Ticker] runs until it is stopped and
    sends on its own one-slot channel. *)
Inductive TimerState : Type := Armed | Fired | Stopped.

Record Timer : Type := mkTimer {
  t_when : Time;
  t_state : TimerState
}.

Record Ticker : Type := mkTicker {
  k_C : Chan;
  k_period : Duration;
  k_when : Time;
  k_running : bool
}.

(** Where the goroutine [loop] stands. *)
Inductive LoopPc : Type :=
| LSelect                       (* waiting in the select *)
| LResetStop (nextStart : Time) (* case nextStart := <-st.reset, before stopTickerTimer() *)
| LResetArm (nextStart : Time)  (* before resetTimer = time.AfterFunc(...) *)
| LDeliver (t : Time)           (* case t := <-nextTick, before sendTime(st.ticks, t) *)
| LDeferStop                    (* returning: deferred stopTickerTimer() *)
| LDeferClose                   (* returning: deferred close of nextTickUpdated *)
| LExited.

(** The local variables of [loop], shared with the timer callback, which
    captures them by reference.  [nextTick] and [ticker] hold the index of a
    ticker, [resetTimer] the index of a timer; [nextTickUpdated] is [true]
    while the variable holds the open channel and [false] once it is nil. *)
Record LoopVars : Type := mkLoop {
  pc : LoopPc;
  nextTick : option nat;
  ticker : option nat;
  resetTimer : option nat;
  nextTickUpdated : bool
}.

(** Where a run of the function passed to [time.AfterFunc] stands; each run
    is a goroutine of its own. *)
Inductive CbPc : Type :=
| CbCheckStop     (* select { case <-st.stop: return; default: } *)
| CbSend          (* sendTime(st.ticks, time.Now()) *)
| CbNewTicker     (* ticker = time.NewTicker(st.interval) *)
| CbSetNextTick   (* nextTick = ticker.C *)
| CbCheckNotify   (* if nextTickUpdated != nil *)
| CbNotify        (* nextTickUpdated <- struct{}{} *)
| CbParked        (* parked on nextTickUpdated until the loop receives *)
| CbStuck         (* parked on a nil channel, forever *)
| CbDone.

(** What can be observed on the handle, in the order it happened. *)
Inductive Event : Type :=
| EvStop                  (* Stop closed the stop channel *)
| EvDelivered (t : Time)  (* a tick was put on the output channel *)
| EvDropped (t : Time)    (* a tick found the output channel full *)
| EvReceived (t : Time)   (* the consumer took a tick from C *)
| EvPanic (msg : string). (* a call parked on a channel panicked *)

Record State : Type := mkState {
  st : ScheduledTicker;
  lp : LoopVars;
  timers : list Timer;
  tickers : list Ticker;
  callbacks : list CbPc;
  clock : Clock;
  crashed : option string;   (* a panic in the loop or in a callback ends the program *)
  history : list Event
}.

Definition set_st (f : ScheduledTicker -> ScheduledTicker) (s : State) : State :=
  mkState (f (st s)) (lp s) (timers s) (tickers s) (callbacks s) (clock s)
          (crashed s) (history s).
Definition set_lp (f : LoopVars -> LoopVars) (s : State) : State :=
  mkState (st s) (f (lp s)) (timers s) (tickers s) (callbacks s) (clock s)
          (crashed s) (history s).
Definition set_timers (f : list Timer -> list Timer) (s : State) : State :=
  mkState (st s) (lp s) (f (timers s)) (tickers s) (callbacks s) (clock s)
          (crashed s) (history s).
Definition set_tickers (f : list Ticker -> list Ticker) (s : State) : State :=
  mkState (st s) (lp s) (timers s) (f (tickers s)) (callbacks s) (clock s)
          (crashed s) (history s).
Definition set_callbacks (f : list CbPc -> list CbPc) (s : State) : State :=
  mkState (st s) (lp s) (timers s) (tickers s) (f (callbacks s)) (clock s)
          (crashed s) (history s).
Definition set_clock (c : Clock) (s : State) : State :=
  mkState (st s) (lp s) (timers s) (tickers s) (callbacks s) c
          (crashed s) (history s).
Definition crash (msg : string) (s : State) : State :=
  mkState (st s) (lp s) (timers s) (tickers s) (callbacks s) (clock s)
          (Some msg) (history s).
Definition record (e : Event) (s : State) : State :=
  mkState (st s) (lp s) (timers s) (tickers s) (callbacks s) (clock s)
          (crashed s) (history s ++ [e]).
Definition record_all (es : list Event) (s : State) : State :=
  mkState (st s) (lp s) (timers s) (tickers s) (callbacks s) (clock s)
          (crashed s) (history s ++ es).

Definition set_ticks (c : Chan) (t : ScheduledTicker) : ScheduledTicker :=
  mkST c (reset t) (stop t) (interval t).
Definition set_reset (c : SyncChan) (t : ScheduledTicker) : ScheduledTicker :=
  mkST (ticks t) c (stop t) (interval t).
Definition set_stop (c : SyncChan) (t : ScheduledTicker) : ScheduledTicker :=
  mkST (ticks t) (reset t) c (interval t).
Definition set_interval (d : Duration) (t : ScheduledTicker) : ScheduledTicker :=
  mkST (ticks t) (reset t) (stop t) d.

Definition set_pc (p : LoopPc) (l : LoopVars) : LoopVars :=
  mkLoop p (nextTick l) (ticker l) (resetTimer l) (nextTickUpdated l).
Definition set_nextTick (k : option nat) (l : LoopVars) : LoopVars :=
  mkLoop (pc l) k (ticker l) (resetTimer l) (nextTickUpdated l).
Definition set_ticker (k : option nat) (l : LoopVars) : LoopVars :=
  mkLoop (pc l) (nextTick l) k (resetTimer l) (nextTickUpdated l).
Definition set_resetTimer (i : option nat) (l : LoopVars) : LoopVars :=
  mkLoop (pc l) (nextTick l) (ticker l) i (nextTickUpdated l).
Definition set_nextTickUpdated (b : bool) (l : LoopVars) : LoopVars :=
  mkLoop (pc l) (nextTick l) (ticker l) (resetTimer l) b.

(** The outcome of a call by the owner of the handle. *)
Inductive Outcome : Type :=
| Done (s : State)
| Panicked (msg : string) (s : State).

Definition state_of (o : Outcome) : State :=
  match o with
  | Done s => s
  | Panicked _ s => s
  end.

(** [Reset]: after the check, the new interval is stored in the handle and
    the anchor is sent on the unbuffered channel [reset].  The caller stays
    parked on that channel until the loop's select takes the value; a send
    on a closed channel panics. *)
Definition Reset (next : Time) (interval : Duration) (s : State) : Outcome :=
  if interval <=? 0
  then Panicked "non-positive interval for ScheduledTicker.Reset" s
  else
    let s1 := set_st (set_interval interval) s in
    if s_closed (reset (st s1))
    then Panicked "send on closed channel" s1
    else Done (set_st (set_reset (mkSync false (s_senders (reset (st s1)) ++ [next]))) s1).

(** [close(ch)] of an unbuffered channel: closing a closed channel panics.
    The senders still parked on the channel are released, so a closed channel
    has none; each of them panics, see [parked_panics]. *)
Definition close (c : SyncChan) : Result SyncChan :=
  if s_closed c then Panic "close of closed channel"
  else Ok (mkSync true []).

(** What closing a channel does to the senders parked on it: each of them
    panics with "send on closed channel", in the goroutine of its own call
    (a call of [Reset] that was still waiting for the loop). *)
Definition parked_panics (c : SyncChan) : list Event :=
  List.map (fun _ => EvPanic "send on closed channel") (s_senders c).

(** [Stop]: closes [stop], then [reset].  The channel [ticks] is not
    touched.  (Nothing ever sends on [stop].) *)
Definition Stop (s : State) : Outcome :=
  match close (stop (st s)) with
  | Panic msg => Panicked msg s
  | Ok c =>
    let s1 := record EvStop (set_st (set_stop c) s) in
    match close (reset (st s1)) with
    | Panic msg => Panicked msg s1
    | Ok c' =>
      Done (record_all (parked_panics (reset (st s1))) (set_st (set_reset c') s1))
    end
  end.

(** [New]: after the check, the handle is made with a one-element buffer for
    the ticks, the loop is started and [Reset] hands it the first anchor. *)
Definition New (first : Time) (interval : Duration) (clk : Clock) : Result State :=
  if interval <=? 0
  then Panic "non-positive interval for New ScheduledTicker"
  else
    let c := make_chan 1 in
    let ticker := mkST c make_sync make_sync 0 in
    let started :=
      mkState ticker (mkLoop LSelect None None None true) [] [] [] clk None [] in
    match Reset first interval started with
    | Done s => Ok s
    | Panicked msg _ => Panic msg
    end.

(** ** The runtime's side of timers *)

Definition Timer_Stop (t : Timer) : Timer :=
  match t_state t with
  | Armed => mkTimer (t_when t) Stopped
  | _ => t
  end.

Definition Ticker_Stop (k : Ticker) : Ticker :=
  mkTicker (k_C k) (k_period k) (k_when k) false.

(** [time.AfterFunc(d, f)] arms a timer for [d] from now (at once when [d]
    is not positive); the result is the instant it is due. *)
Definition time_AfterFunc (d : Duration) : M Time :=
  now <- time_Now ;; ret (now + Z.max d 0).

(** [time.NewTicker(d)] panics unless [d] is positive. *)
Definition time_NewTicker (d : Duration) : M Ticker :=
  if d <=? 0 then lift (Panic "non-positive interval for NewTicker")
  else now <- time_Now ;; ret (mkTicker (make_chan 1) d (now + d) true).

(** Runs a computation on the clock of the state; a panic ends the program. *)
Definition with_clock {A} (m : M A) (s : State) (k : A -> State -> State) : State :=
  match m (clock s) with
  | Ok (a, c) => k a (set_clock c s)
  | Panic msg => crash msg s
  end.

(** ** The statements of the loop and of the timer callback *)

(** The closure [stopTickerTimer] of [loop]. *)
Definition stopTickerTimer (s : State) : State :=
  let s1 := set_lp (set_nextTick None) s in
  let s2 :=
    match resetTimer (lp s1) with
    | Some i => set_lp (set_resetTimer None) (set_timers (alter Timer_Stop i) s1)
    | None => s1
    end in
  match ticker (lp s2) with
  | Some k => set_lp (set_ticker None) (set_tickers (alter Ticker_Stop k) s2)
  | None => s2
  end.

(** [sendTime(st.ticks, t)], with what it did written to the history. *)
Definition deliver (t : Time) (s : State) : State :=
  match sendTime (ticks (st s)) t with
  | Ok c =>
    record (if has_room (ticks (st s)) then EvDelivered t else EvDropped t)
           (set_st (set_ticks c) s)
  | Panic msg => crash msg s
  end.

Inductive SelectCase : Type :=
| CaseStop                       (* case <-st.stop *)
| CaseReset                      (* case nextStart := <-st.reset *)
| CaseNextTickUpdated (i : nat)  (* case <-nextTickUpdated, from callback i *)
| CaseNextTick.                  (* case t := <-nextTick *)

(** The select of the loop takes one of its ready cases. *)
Definition step_select (c : SelectCase) (s : State) : option State :=
  match pc (lp s) with
  | LSelect =>
    match c with
    | CaseStop =>
      if s_closed (stop (st s)) then Some (set_lp (set_pc LDeferStop) s) else None
    | CaseReset =>
      match s_senders (reset (st s)) with
      | next :: rest =>
        Some (set_lp (set_pc (LResetStop next))
                (set_st (set_reset (mkSync (s_closed (reset (st s))) rest)) s))
      | [] =>
        (* a receive from a closed channel yields the zero value *)
        if s_closed (reset (st s))
        then Some (set_lp (set_pc (LResetStop zeroTime)) s)
        else None
      end
    | CaseNextTickUpdated i =>
      if nextTickUpdated (lp s) then
        match callbacks s !! i with
        | Some CbParked => Some (set_callbacks (<[i := CbDone]>) s)
        | _ => None
        end
      else None
    | CaseNextTick =>
      match nextTick (lp s) with
      | Some k =>
        match tickers s !! k with
        | Some tk =>
          match buf (k_C tk) with
          | t :: rest =>
            let c' := mkChan (cap (k_C tk)) rest (closed (k_C tk)) in
            Some (set_lp (set_pc (LDeliver t))
                    (set_tickers
                       (<[k := mkTicker c' (k_period tk) (k_when tk) (k_running tk)]>) s))
          | [] => None
          end
        | None => None
        end
      | None => None
      end
    end
  | _ => None
  end.

Definition is_parked (p : CbPc) : bool :=
  match p with CbParked => true | _ => false end.

(** The loop runs the statement it stands at. *)
Definition step_loop (s : State) : option State :=
  match pc (lp s) with
  | LSelect => None
  | LResetStop nextStart =>
    Some (set_lp (set_pc (LResetArm nextStart)) (stopTickerTimer s))
  | LResetArm nextStart =>
    Some (with_clock
            (t <- nextRun nextStart (interval (st s)) ;;
             d <- time_Until t ;;
             time_AfterFunc d)
            s
            (fun when s' =>
               set_lp (fun l => set_pc LSelect
                                  (set_resetTimer (Some (length (timers s'))) l))
                 (set_timers (fun ts => ts ++ [mkTimer when Armed]) s')))
  | LDeliver t => Some (set_lp (set_pc LSelect) (deliver t s))
  | LDeferStop => Some (set_lp (set_pc LDeferClose) (stopTickerTimer s))
  | LDeferClose =>
    (* ntu, nextTickUpdated = nextTickUpdated, nil; close(ntu): a sender
       parked on the channel panics *)
    let s1 := set_lp (fun l => set_pc LExited (set_nextTickUpdated false l)) s in
    Some (if existsb is_parked (callbacks s)
          then crash "send on closed channel" s1 else s1)
  | LExited => None
  end.

(** Callback [i] runs the statement it stands at. *)
Definition step_callback (i : nat) (s : State) : option State :=
  match callbacks s !! i with
  | Some CbCheckStop =>
    Some (set_callbacks (<[i := if s_closed (stop (st s)) then CbDone else CbSend]>) s)
  | Some CbSend =>
    Some (with_clock time_Now s
            (fun now s' => set_callbacks (<[i := CbNewTicker]>) (deliver now s')))
  | Some CbNewTicker =>
    Some (with_clock (time_NewTicker (interval (st s))) s
            (fun tk s' =>
               set_callbacks (<[i := CbSetNextTick]>)
                 (set_lp (set_ticker (Some (length (tickers s'))))
                    (set_tickers (fun ks => ks ++ [tk]) s'))))
  | Some CbSetNextTick =>
    match ticker (lp s) with
    | Some k =>
      Some (set_callbacks (<[i := CbCheckNotify]>) (set_lp (set_nextTick (Some k)) s))
    | None => Some (crash "invalid memory address or nil pointer dereference" s)
    end
  | Some CbCheckNotify =>
    Some (set_callbacks (<[i := if nextTickUpdated (lp s) then CbNotify else CbDone]>) s)
  | Some CbNotify =>
    Some (set_callbacks (<[i := if nextTickUpdated (lp s) then CbParked else CbStuck]>) s)
  | _ => None
  end.

(** The runtime fires an armed timer that is due: its function starts in a
    goroutine of its own. *)
Definition step_fire_timer (i : nat) (s : State) : option State :=
  match timers s !! i with
  | Some tm =>
    match t_state tm with
    | Armed =>
      let now := reading (clock s) 0 in
      if t_when tm <=? now
      then Some (set_callbacks (fun cs => cs ++ [CbCheckStop])
                   (set_timers (<[i := mkTimer (t_when tm) Fired]>)
                      (set_clock (mkClock (wall (clock s)) (S (reads (clock s)))) s)))
      else None
    | _ => None
    end
  | None => None
  end.

(** The runtime fires a running ticker that is due: the time goes on the
    ticker's channel unless that is full. *)
Definition step_fire_ticker (k : nat) (s : State) : option State :=
  match tickers s !! k with
  | Some tk =>
    let now := reading (clock s) 0 in
    if k_running tk && (k_when tk <=? now) then
      match sendTime (k_C tk) now with
      | Ok c =>
        Some (set_tickers
                (<[k := mkTicker c (k_period tk) (k_when tk + k_period tk) true]>)
                (set_clock (mkClock (wall (clock s)) (S (reads (clock s)))) s))
      | Panic _ => None
      end
    else None
  | None => None
  end.

(** The consumer receives from [C]. *)
Definition step_receive (s : State) : option State :=
  match buf (ticks (st s)) with
  | t :: rest =>
    Some (record (EvReceived t)
            (set_st (set_ticks (mkChan (cap (ticks (st s))) rest (closed (ticks (st s))))) s))
  | [] => None
  end.

Inductive Action : Type :=
| CallReset (next : Time) (interval : Duration)
| CallStop
| Receive
| Select (c : SelectCase)
| Loop
| Callback (i : nat)
| FireTimer (i : nat)
| FireTicker (k : nat)
| Idle.

(** One step of the whole program; [None] when the action is not enabled. *)
Definition step (a : Action) (s : State) : option State :=
  match crashed s with
  | Some _ => None
  | None =>
    match a with
    | CallReset next interval => Some (state_of (Reset next interval s))
    | CallStop => Some (state_of (Stop s))
    | Receive => step_receive s
    | Select c => step_select c s
    | Loop => step_loop s
    | Callback i => step_callback i s
    | FireTimer i => step_fire_timer i s
    | FireTicker k => step_fire_ticker k s
    | Idle => Some (set_clock (mkClock (wall (clock s)) (S (reads (clock s)))) s)
    end
  end.

Fixpoint run (acts : list Action) (s : State) : option State :=
  match acts with
  | [] => Some s
  | a :: acts' =>
    match step a s with
    | Some s' => run acts' s'
    | None => None
    end
  end.

(** The states a program that made its ticker with [New] can be in. *)
Inductive reachable : State -> Prop :=
| reach_New first interval clk s :
    New first interval clk = Ok s -> reachable s
| reach_step a s s' :
    reachable s -> step a s = Some s' -> reachable s'.

(** ** Observations *)

Definition is_delivered (e : Event) : bool :=
  match e with EvDelivered _ => true | _ => false end.

(** Was a tick put on the output channel after [Stop] closed [stop]? *)
Fixpoint delivered_after_stop (h : list Event) : bool :=
  match h with
  | [] => false
  | EvStop :: h' => existsb is_delivered h' || delivered_after_stop h'
  | _ :: h' => delivered_after_stop h'
  end.

Definition is_armed (t : Timer) : bool :=
  match t_state t with Armed => true | _ => false end.

(** The number of one-shot timers that are armed and of tickers that run. *)
Definition live_timers (s : State) : nat := length (List.filter is_armed (timers s)).
Definition live_tickers (s : State) : nat := length (List.filter k_running (tickers s)).

(** A ticker is live while neither of its channels has been closed. *)
Definition live (s : State) : Prop :=
  s_closed (stop (st s)) = false /\ s_closed (reset (st s)) = false.

(** ** The older revision of the package

    There [Reset] does not check the interval and ticks are sent with a plain
    send, which blocks while the buffer is full. *)
Module Rev0.

Definition Reset (next : Time) (interval : Duration) (s : State) : Outcome :=
  let s1 := set_st (set_interval interval) s in
  if s_closed (reset (st s1))
  then Panicked "send on closed channel" s1
  else Done (set_st (set_reset (mkSync false (s_senders (reset (st s1)) ++ [next]))) s1).

(** [st.ticks <- t]; [None] while the send has to wait. *)
Definition send (ticks : Chan) (t : Time) : option (Result Chan) :=
  if closed ticks then Some (Panic "send on closed channel")
  else if has_room ticks
       then Some (Ok (mkChan (cap ticks) (buf ticks ++ [t]) (closed ticks)))
       else None.

End Rev0.

(** The output channel has one slot, is open and never holds more than one
    tick. *)
Definition ticks_ok (s : State) : Prop :=
  cap (ticks (st s)) = 1%nat /\
  closed (ticks (st s)) = false /\
  (length (buf (ticks (st s))) <= 1)%nat.

(** Every armed one-shot timer is the one the loop holds in [resetTimer],
    and the loop holds none between its [stopTickerTimer] and its
    [time.AfterFunc]. *)
Definition timers_ok (s : State) : Prop :=
  (forall i tm, timers s !! i = Some tm -> t_state tm = Armed ->
                resetTimer (lp s) = Some i) /\
  (forall n, pc (lp s) = LResetArm n -> resetTimer (lp s) = None).

(** ** Example runs *)

(** A ticker made at clock readings 1000, 2000, ... with its first tick
    scheduled for 2500 and an interval of 100. *)
Definition example_clock : Clock := clockFrom 1000 1000.

Definition example_ticker : State :=
  match New 2500 100 example_clock with
  | Ok s => s
  | Panic _ =>
    mkState (mkST (make_chan 0) make_sync make_sync 0)
            (mkLoop LExited None None None false) [] [] [] example_clock None []
  end.

(** The first timer of [example_ticker] has fired and its callback has passed
    the check of the stop channel: it stands before its [sendTime]. *)
Definition first_fire : list Action :=
  [Select CaseReset; Loop; Loop; FireTimer 0; Callback 0].

Definition at_first_fire : State :=
  match run first_fire example_ticker with
  | Some s => s
  | None => example_ticker
  end.

(** The callback of the first timer checks the stop channel, then [Stop] is
    called, then the callback sends its tick. *)
Definition stop_race : list Action :=
  first_fire ++ [CallStop; Callback 0].

(** The first tick is delivered and received and the interval ticker has a
    tick waiting when [Stop] is called: the select of the loop, with the stop
    case and the tick case both ready, takes the tick. *)
Definition stop_race_tick : list Action :=
  first_fire ++
  [Callback 0; Callback 0; Callback 0; Callback 0; Callback 0;
   Select (CaseNextTickUpdated 0);
   Receive; FireTicker 0;
   CallStop; Select CaseNextTick; Loop].

(** The callback of the first timer has sent its tick when a [Reset] arrives:
    the loop stops what it holds, which is not yet the ticker the callback is
    about to make; the second timer's callback makes a second ticker. *)
Definition reset_race : list Action :=
  first_fire ++
  [Callback 0;
   CallReset 2500 100; Select CaseReset; Loop;
   Callback 0; Callback 0;
   Loop;
   Callback 0; Callback 0; Select (CaseNextTickUpdated 0);
   FireTimer 1; Callback 1; Callback 1; Callback 1].

(** [Stop] is called while the callback of the first timer is past its check:
    the loop returns and the callback makes its ticker afterwards. *)
Definition stop_leak : list Action :=
  first_fire ++
  [CallStop; Select CaseStop; Loop; Loop;
   Callback 0; Callback 0; Callback 0; Callback 0].

(** ** More of package time, as the tests use it *)

Definition second : Duration := 1000000000.
Definition minute : Duration := 60 * second.
Definition hour : Duration := 60 * minute.

(** [t.Truncate(d)]: [t] rounded down to a multiple of [d] since the zero
    time; [t] itself when [d] is not positive. *)
Definition Time_Truncate (t : Time) (d : Duration) : Time :=
  if d <=? 0 then t
  else let r := t mod d in Time_Add t (- r).

(** [lessThanHalf(x, y)]: [x + x < y], for remainders, which do not
    overflow. *)
Definition lessThanHalf (x y : Duration) : bool := x + x <? y.

(** [t.Round(d)]: [t] rounded to the nearest multiple of [d] since the zero
    time, halfway values rounding up; [t] itself when [d] is not positive. *)
Definition Time_Round (t : Time) (d : Duration) : Time :=
  if d <=? 0 then t
  else
    let r := t mod d in
    if lessThanHalf r d then Time_Add t (- r) else Time_Add t (d - r).

(** [time.Date(2345, 1, 1, 0, 0, 0, 0, time.UTC)]: 2344 years of 365 days
    and 568 leap days after the zero time. *)
Definition date_2345 : Time := (2344 * 365 + 568) * (24 * hour).

(** ** TestNextRun

    A case of the table of [TestNextRun]. *)
Record nextRunCase : Type := mkCase {
  tc_firstStart : Time;
  tc_interval : Duration;
  tc_expected : Time
}.

Definition distantFuture : nextRunCase := mkCase date_2345 minute date_2345.

(** The case startInPast reads the clock twice while the table is built. *)
Definition startInPast : M nextRunCase :=
  now0 <- time_Now ;;
  now1 <- time_Now ;;
  ret (mkCase (Time_Truncate now0 (24 * hour))
              (15 * minute)
              (Time_Round (Time_Add now1 (15 * (30 * second))) (15 * minute))).

(** The body of the subtest: does [nextRun] return the expected time? *)
Definition run_case (tc : nextRunCase) : M bool :=
  firstRun <- nextRun (tc_firstStart tc) (tc_interval tc) ;;
  ret (firstRun =? tc_expected tc).

(** [TestNextRun]: the table is built, then the cases run in order; the
    result lists which of them pass. *)
Definition TestNextRun : M (list bool) :=
  tc2 <- startInPast ;;
  ok1 <- run_case distantFuture ;;
  ok2 <- run_case tc2 ;;
  ret [ok1; ok2].

(** Once the loop runs its deferred calls no one-shot timer is armed, and
    once it has returned the variable [nextTickUpdated] is nil. *)
Definition exit_ok (s : State) : Prop :=
  (pc (lp s) = LDeferClose \/ pc (lp s) = LExited ->
   forall i tm, timers s !! i = Some tm -> t_state tm <> Armed) /\
  (pc (lp s) = LExited -> nextTickUpdated (lp s) = false).

(** The ticks the history shows as put on the output channel, and as taken
    from it. *)
Fixpoint delivered (h : list Event) : list Time :=
  match h with
  | [] => []
  | EvDelivered t :: h' => t :: delivered h'
  | _ :: h' => delivered h'
  end.

Fixpoint received (h : list Event) : list Time :=
  match h with
  | [] => []
  | EvReceived t :: h' => t :: received h'
  | _ :: h' => received h'
  end.

(** The ticks delivered so far are those received so far followed by the
    one that waits. *)
Definition fifo_ok (s : State) : Prop :=
  delivered (history s) = received (history s) ++ buf (ticks (st s)).

(** ** More example runs *)

(** The state of [example_ticker] after a run (the ticker itself when the
    run is not possible). *)
Definition after (acts : list Action) : State :=
  match run acts example_ticker with
  | Some s => s
  | None => example_ticker
  end.


(** The loop has armed the first timer and waits in its select. *)
Definition at_armed : State := after [Select CaseReset; Loop; Loop].

(** The first tick waits in [C]. *)
Definition at_first_tick : State := after (first_fire ++ [Callback 0]).

(** What follows in [reset_race], up to the send of the second callback. *)
Definition second_fire : list Action :=
  [CallReset 2500 100; Select CaseReset; Loop;
   Callback 0; Callback 0;
   Loop;
   Callback 0; Callback 0; Select (CaseNextTickUpdated 0);
   FireTimer 1; Callback 1; Callback 1].

(** [Stop] is called and the loop takes the stop case while the callback of
    the first timer is about to notify the loop; the callback then parks on
    [nextTickUpdated]. *)
Definition at_parked_exit : State :=
  after (first_fire ++
         [Callback 0; Callback 0; Callback 0;
          CallStop; Select CaseStop;
          Callback 0; Callback 0]).

(** The loop has returned after a [Stop]. *)
Definition at_exited : State :=
  after [Select CaseReset; Loop; Loop; CallStop; Select CaseStop; Loop; Loop].

(** A clock read in the year 2026, a microsecond between readings. *)
Definition test_clock : Clock := clockFrom 63900000000000000000 1000.

(** * Properties *)

(** ** Duration arithmetic *)

Lemma wrap64_small z : in_int64 z -> wrap64 z = z.
Proof.
  unfold in_int64, minDuration, maxDuration, wrap64. intros H.
  rewrite Z.mod_small; lia.
Qed.

Lemma Time_Sub_exact t u : in_int64 (t - u) -> Time_Sub t u = t - u.
Proof.
  unfold in_int64, Time_Sub. intros [H1 H2].
  destruct (Z.ltb_spec (t - u) minDuration); [lia|].
  destruct (Z.ltb_spec maxDuration (t - u)); [lia|]. reflexivity.
Qed.

Lemma Time_Sub_in_int64 t u : in_int64 (Time_Sub t u).
Proof.
  unfold in_int64, Time_Sub, minDuration, maxDuration.
  destruct (Z.ltb_spec (t - u) (- 2 ^ 63)); [lia|].
  destruct (Z.ltb_spec (2 ^ 63 - 1) (t - u)); lia.
Qed.

(** ** nextRun *)

Lemma nextRun_future_eq firstStart interval c :
  reading c 0 < firstStart ->
  nextRun firstStart interval c
  = Ok (firstStart, mkClock (wall c) (S (reads c))).
Proof.
  intros H. unfold reading in H. rewrite Nat.add_0_r in H.
  unfold nextRun, bind, time_Now, Time_Before, ret.
  destruct (Z.ltb_spec (wall c (reads c)) firstStart); [reflexivity | lia].
Qed.

Lemma nextRun_past_eq firstStart interval c :
  ~ reading c 0 < firstStart ->
  nextRun firstStart interval c
  = match Dur.div (Time_Sub (reading c 1) firstStart) interval with
    | Ok pastIterations =>
      Ok (Time_Add firstStart (Dur.mul (Dur.add pastIterations 1) interval),
          mkClock (wall c) (S (S (reads c))))
    | Panic msg => Panic msg
    end.
Proof.
  intros H. unfold reading in *. rewrite Nat.add_0_r in H.
  replace (reads c + 1)%nat with (S (reads c)) by lia.
  unfold nextRun, bind, time_Now, time_Since, Time_Before, ret, lift; simpl.
  destruct (Z.ltb_spec (wall c (reads c)) firstStart); [lia|].
  unfold bind; simpl. destruct (Dur.div _ _); reflexivity.
Qed.

Lemma wrap64_congr a : exists k, wrap64 a = a + k * 2 ^ 64.
Proof.
  unfold wrap64. exists (- ((a + 2 ^ 63) / 2 ^ 64)).
  pose proof (Z.div_mod (a + 2 ^ 63) (2 ^ 64)) as H. lia.
Qed.

Lemma wrap64_add_l a b : wrap64 (wrap64 a + b) = wrap64 (a + b).
Proof.
  destruct (wrap64_congr a) as [k Hk]. rewrite Hk. unfold wrap64.
  replace (a + k * 2 ^ 64 + b + 2 ^ 63) with (a + b + 2 ^ 63 + k * 2 ^ 64) by ring.
  rewrite Z.mod_add by lia. reflexivity.
Qed.

Lemma wrap64_mul_l a b : wrap64 (wrap64 a * b) = wrap64 (a * b).
Proof.
  destruct (wrap64_congr a) as [k Hk]. rewrite Hk. unfold wrap64.
  replace ((a + k * 2 ^ 64) * b + 2 ^ 63) with (a * b + 2 ^ 63 + (k * b) * 2 ^ 64) by ring.
  rewrite Z.mod_add by lia. reflexivity.
Qed.

(** The three int64 operations of [nextRun] amount to one reduction of the
    exact product. *)
Lemma pastIterations_product q interval :
  Dur.mul (Dur.add (wrap64 q) 1) interval = wrap64 ((q + 1) * interval).
Proof.
  unfold Dur.mul, Dur.add. rewrite wrap64_add_l, wrap64_mul_l. reflexivity.
Qed.

Lemma nextRun_past_value anchor interval c :
  interval <> 0 ->
  ~ reading c 0 < anchor ->
  value (nextRun anchor interval c)
  = Some (anchor
          + wrap64 ((Z.quot (Time_Sub (reading c 1) anchor) interval + 1) * interval)).
Proof.
  intros Hi Hp. rewrite nextRun_past_eq by assumption. unfold Dur.div.
  destruct (Z.eqb_spec interval 0); [contradiction|]. simpl.
  unfold Time_Add. rewrite pastIterations_product. reflexivity.
Qed.

Lemma nextRun_past_exact anchor interval c :
  interval <> 0 ->
  ~ reading c 0 < anchor ->
  in_int64 (reading c 1 - anchor) ->
  in_int64 ((Z.quot (reading c 1 - anchor) interval + 1) * interval) ->
  value (nextRun anchor interval c)
  = Some (anchor + (Z.quot (reading c 1 - anchor) interval + 1) * interval).
Proof.
  intros Hi Hp H1 H2.
  rewrite (nextRun_past_value _ _ _ Hi Hp), (Time_Sub_exact _ _ H1), (wrap64_small _ H2).
  reflexivity.
Qed.

Lemma nextRun_past_zero anchor c :
  ~ reading c 0 < anchor ->
  nextRun anchor 0 c = Panic "runtime error: integer divide by zero".
Proof. intros Hp. rewrite nextRun_past_eq by exact Hp. reflexivity. Qed.

(** C1 (as amended): for every anchor and every interval, when the first
    reading of the clock is not before the anchor: for the interval zero
    [nextRun] panics on the division and returns nothing; for every other
    interval for which the elapsed time (second reading minus anchor) and the
    product [(pastIterations + 1) * interval] fit in a Duration, [nextRun]
    returns [anchor + (pastIterations + 1) * interval], where [pastIterations]
    is the elapsed time divided by the interval, truncating toward zero. *)
Theorem nextRun_past anchor interval c :
  ~ reading c 0 < anchor ->
  (interval = 0 ->
   nextRun anchor interval c = Panic "runtime error: integer divide by zero") /\
  (interval <> 0 ->
   in_int64 (reading c 1 - anchor) ->
   in_int64 ((Z.quot (reading c 1 - anchor) interval + 1) * interval) ->
   value (nextRun anchor interval c)
   = Some (anchor + (Z.quot (reading c 1 - anchor) interval + 1) * interval)).
Proof.
  intros Hp. split.
  - intros ->. apply nextRun_past_zero. exact Hp.
  - intros Hi H1 H2. apply nextRun_past_exact; assumption.
Qed.

Lemma nextRun_past_witness :
  ~ reading (clockFrom 100 1) 0 < 40 /\
  nextRun 40 0 (clockFrom 100 1) = Panic "runtime error: integer divide by zero" /\
  value (nextRun 40 7 (clockFrom 100 1)) = Some 103 /\
  value (nextRun 40 (-7) (clockFrom 100 1)) = Some 89.
Proof.
  assert (Hp : ~ reading (clockFrom 100 1) 0 < 40)
    by (vm_compute; intros H; discriminate H).
  split; [exact Hp|]. split; [|split].
  - apply (nextRun_past 40 0 (clockFrom 100 1) Hp). reflexivity.
  - apply (nextRun_past 40 7 (clockFrom 100 1) Hp).
    + lia.
    + vm_compute; split; intros H; discriminate H.
    + vm_compute; split; intros H; discriminate H.
  - apply (nextRun_past 40 (-7) (clockFrom 100 1) Hp).
    + lia.
    + vm_compute; split; intros H; discriminate H.
    + vm_compute; split; intros H; discriminate H.
Defined.

(** C1 as stated fails for the interval zero: the division panics and
    nothing is returned. *)
Lemma nextRun_past_zero_interval :
  let c := clockFrom 100 1 in
  ~ reading c 0 < 40 /\
  nextRun 40 0 c = Panic "runtime error: integer divide by zero" /\
  value (nextRun 40 0 c) <> Some (40 + (Z.quot (reading c 1 - 40) 0 + 1) * 0).
Proof.
  simpl. split; [|split].
  - vm_compute. intros H; discriminate H.
  - reflexivity.
  - vm_compute. intros H; discriminate H.
Qed.

(** C2 (as amended): for every anchor strictly in the past, every positive
    interval and a clock that does not run backwards, if the elapsed time plus
    one interval fits in a Duration, then the result of [nextRun] is strictly
    after now (the reading [time.Since] takes), at most one interval after
    it, and an exact multiple of the interval away from the anchor. *)
Theorem nextRun_lattice anchor interval c :
  0 < interval ->
  anchor < reading c 0 ->
  monotone c ->
  reading c 1 - anchor + interval <= maxDuration ->
  exists r,
    value (nextRun anchor interval c) = Some r /\
    reading c 1 < r /\
    r - reading c 1 <= interval /\
    (r - anchor) mod interval = 0.
Proof.
  intros Hi Hp Hm Hr.
  assert (H01 : reading c 0 <= reading c 1) by (apply Hm; lia).
  set (e := reading c 1 - anchor) in *.
  assert (He : 0 <= e) by (unfold e; lia).
  pose proof (Z.quot_rem' e interval) as Hq.
  pose proof (Z.rem_bound_pos e interval He Hi) as Hb.
  assert (Hq0 : 0 <= Z.quot e interval) by (apply Z.quot_pos; lia).
  assert (Hin1 : in_int64 e) by (unfold in_int64, minDuration, maxDuration in *; lia).
  assert (Hin2 : in_int64 ((Z.quot e interval + 1) * interval))
    by (unfold in_int64, minDuration, maxDuration in *; nia).
  exists (anchor + (Z.quot e interval + 1) * interval).
  split; [apply nextRun_past_exact; [lia | lia | assumption | assumption]|].
  split; [unfold e in *; nia|].
  split; [unfold e in *; nia|].
  replace (anchor + (Z.quot e interval + 1) * interval - anchor)
    with ((Z.quot e interval + 1) * interval) by ring.
  apply Z.mod_mul. lia.
Qed.

Lemma clockFrom_monotone t0 dt : 0 <= dt -> monotone (clockFrom t0 dt).
Proof. intros H i j Hij. simpl. nia. Qed.

Lemma nextRun_lattice_witness :
  exists r,
    value (nextRun 40 7 (clockFrom 100 1)) = Some r /\
    reading (clockFrom 100 1) 1 < r /\
    r - reading (clockFrom 100 1) 1 <= 7 /\
    (r - 40) mod 7 = 0.
Proof.
  apply (nextRun_lattice 40 7 (clockFrom 100 1)).
  - lia.
  - vm_compute. reflexivity.
  - apply clockFrom_monotone. lia.
  - vm_compute. intros H; discriminate H.
Defined.

(** C2 as stated fails when now lies on the lattice: with the anchor at 0,
    the interval 5 and the clock reading 10, the result is 15, a full
    interval after now and not less. *)
Lemma nextRun_on_lattice_point :
  let c := clockFrom 10 0 in
  0 < reading c 0 /\ 0 < 5 /\
  value (nextRun 0 5 c) = Some 15 /\
  ~ (exists r, value (nextRun 0 5 c) = Some r /\
               reading c 1 < r /\ r - reading c 1 < 5 /\ (r - 0) mod 5 = 0).
Proof.
  simpl. split; [reflexivity|]. split; [reflexivity|]. split; [reflexivity|].
  intros (r & Hr & _ & Hlt & _).
  assert (r = 15) by (vm_compute in Hr; congruence). subst r.
  vm_compute in Hlt. discriminate Hlt.
Qed.

(** With an anchor more than 2^63 nanoseconds before now (the zero Time with
    an interval of one second, as the tests of the package pass it, read in
    the year 2026) the elapsed time saturates and the product wraps: the
    result lies before the anchor. *)
Lemma nextRun_ancient_anchor :
  value (nextRun zeroTime 1000000000 (clockFrom 63900000000000000000 0))
  = Some (- 9223372036709551616).
Proof. vm_compute. reflexivity. Qed.

(** C3: for every anchor strictly in the future at the reading of the
    clock, and every interval, [nextRun] returns the anchor unchanged. *)
Theorem nextRun_future anchor interval c :
  reading c 0 < anchor ->
  value (nextRun anchor interval c) = Some anchor.
Proof.
  intros H. rewrite nextRun_future_eq by assumption. reflexivity.
Qed.

Lemma nextRun_future_witness :
  reading (clockFrom 100 1) 0 < 5000 /\
  value (nextRun 5000 0 (clockFrom 100 1)) = Some 5000.
Proof.
  assert (H : reading (clockFrom 100 1) 0 < 5000) by (vm_compute; reflexivity).
  split; [exact H|]. exact (nextRun_future 5000 0 (clockFrom 100 1) H).
Defined.

(** ** New, Reset and Stop *)

Lemma example_ticker_New : New 2500 100 example_clock = Ok example_ticker.
Proof. reflexivity. Qed.

Lemma example_ticker_reachable : reachable example_ticker.
Proof. exact (reach_New _ _ _ _ example_ticker_New). Qed.

Lemma example_ticker_live : live example_ticker.
Proof. split; reflexivity. Qed.

(** C4: [New] panics for every interval that is not positive, and then no
    loop is started and no handle exists; for every positive interval it
    returns a handle: the output channel has one slot, the loop stands at its
    select, the interval is stored, the first anchor is parked on [reset],
    and the select, which has no other ready case, takes it, which completes
    the send that [New] waits for. *)
Theorem New_checks_interval first d clk :
  (d <= 0 -> New first d clk = Panic "non-positive interval for New ScheduledTicker") /\
  (0 < d ->
   exists s,
     New first d clk = Ok s /\
     crashed s = None /\
     C (st s) = make_chan 1 /\
     pc (lp s) = LSelect /\
     interval (st s) = d /\
     s_senders (reset (st s)) = [first] /\
     (forall c s', step (Select c) s = Some s' -> c = CaseReset) /\
     exists s',
       step (Select CaseReset) s = Some s' /\
       s_senders (reset (st s')) = [] /\
       pc (lp s') = LResetStop first).
Proof.
  unfold New, Reset. split; intros H.
  - destruct (Z.leb_spec d 0); [reflexivity | lia].
  - destruct (Z.leb_spec d 0); [lia|]. simpl.
    eexists. split; [reflexivity|]. simpl.
    do 5 (split; [reflexivity|]). split.
    + intros c s' Hs. destruct c as [| |i|]; try discriminate Hs; reflexivity.
    + eexists. split; [reflexivity|]. simpl. split; reflexivity.
Qed.

Lemma New_checks_interval_witness :
  New 2500 (-1) example_clock = Panic "non-positive interval for New ScheduledTicker" /\
  exists s,
    New 2500 100 example_clock = Ok s /\
    crashed s = None /\
    C (st s) = make_chan 1 /\
    pc (lp s) = LSelect /\
    interval (st s) = 100 /\
    s_senders (reset (st s)) = [2500] /\
    (forall c s', step (Select c) s = Some s' -> c = CaseReset) /\
    exists s',
      step (Select CaseReset) s = Some s' /\
      s_senders (reset (st s')) = [] /\
      pc (lp s') = LResetStop 2500.
Proof.
  split.
  - apply (New_checks_interval 2500 (-1) example_clock). lia.
  - apply (New_checks_interval 2500 100 example_clock). lia.
Defined.

(** C5: on a live ticker, [Reset] panics for every interval that is not
    positive, before anything is stored or sent (the state is unchanged);
    for every positive interval it does not panic: it stores the interval and
    hands the anchor to the loop. *)
Theorem Reset_checks_interval s next d :
  live s ->
  (d <= 0 ->
   Reset next d s = Panicked "non-positive interval for ScheduledTicker.Reset" s) /\
  (0 < d ->
   exists s',
     Reset next d s = Done s' /\
     interval (st s') = d /\
     s_senders (reset (st s')) = s_senders (reset (st s)) ++ [next] /\
     s_closed (reset (st s')) = false).
Proof.
  intros [_ Hr]. unfold Reset. split; intros H.
  - destruct (Z.leb_spec d 0); [reflexivity | lia].
  - destruct (Z.leb_spec d 0); [lia|]. simpl. rewrite Hr.
    eexists. split; [reflexivity|]. simpl. repeat split.
Qed.

Lemma Reset_checks_interval_witness :
  live example_ticker /\
  Reset 7000 0 example_ticker
  = Panicked "non-positive interval for ScheduledTicker.Reset" example_ticker /\
  exists s',
    Reset 7000 250 example_ticker = Done s' /\
    interval (st s') = 250 /\
    s_senders (reset (st s')) = s_senders (reset (st example_ticker)) ++ [7000] /\
    s_closed (reset (st s')) = false.
Proof.
  split; [exact example_ticker_live|]. split.
  - apply (Reset_checks_interval example_ticker 7000 0 example_ticker_live). lia.
  - apply (Reset_checks_interval example_ticker 7000 250 example_ticker_live). lia.
Defined.

(** The older revision of [Reset] accepts every interval. *)
Lemma Rev0_Reset_unchecked s next d :
  live s -> exists s', Rev0.Reset next d s = Done s' /\ interval (st s') = d.
Proof.
  intros [_ Hr]. unfold Rev0.Reset. simpl. rewrite Hr.
  eexists. split; reflexivity.
Qed.

(** C10: once [Stop] has completed, a further [Reset] panics (for a positive
    interval, and in the older revision for every interval, on the send on
    the closed channel [reset]) and a second [Stop] panics on closing the
    closed channel [stop]. *)
Theorem use_after_Stop_panics s s' :
  Stop s = Done s' ->
  (forall next d,
     exists msg s'',
       Reset next d s' = Panicked msg s'' /\
       (0 < d -> msg = "send on closed channel")) /\
  (forall next d,
     exists s'', Rev0.Reset next d s' = Panicked "send on closed channel" s'') /\
  Stop s' = Panicked "close of closed channel" s'.
Proof.
  unfold Stop, close. intros H.
  destruct (s_closed (stop (st s))) eqn:E1; [discriminate|]. simpl in H.
  destruct (s_closed (reset (st s))) eqn:E2; [discriminate|].
  injection H as <-. simpl. split; [|split; [|reflexivity]].
  - intros next d. unfold Reset.
    destruct (Z.leb_spec d 0).
    + eexists _, _. split; [reflexivity | lia].
    + simpl. eexists _, _. split; reflexivity.
  - intros next d. unfold Rev0.Reset. simpl. eexists. reflexivity.
Qed.

Lemma use_after_Stop_panics_witness :
  exists s',
    Stop example_ticker = Done s' /\
    (forall next d,
       exists msg s'',
         Reset next d s' = Panicked msg s'' /\
         (0 < d -> msg = "send on closed channel")) /\
    (forall next d,
       exists s'', Rev0.Reset next d s' = Panicked "send on closed channel" s'') /\
    Stop s' = Panicked "close of closed channel" s'.
Proof.
  eexists. split; [vm_compute; reflexivity|].
  apply (use_after_Stop_panics example_ticker). vm_compute. reflexivity.
Defined.

(** ** The output channel *)

Lemma st_stopTickerTimer s : st (stopTickerTimer s) = st s.
Proof.
  unfold stopTickerTimer. simpl.
  destruct (resetTimer (lp s)); simpl; destruct (ticker (lp s)); reflexivity.
Qed.

Lemma sendTime_ok c t :
  cap c = 1%nat -> closed c = false -> (length (buf c) <= 1)%nat ->
  exists c',
    sendTime c t = Ok c' /\
    cap c' = 1%nat /\ closed c' = false /\ (length (buf c') <= 1)%nat /\
    buf c' = match buf c with [] => [t] | b => b end.
Proof.
  intros Hc Ho Hl. unfold sendTime, has_room. rewrite Ho, Hc.
  destruct (buf c) as [|x l] eqn:E; simpl.
  - eexists. split; [reflexivity|]. simpl. auto.
  - eexists. split; [reflexivity|]. rewrite E. auto.
Qed.

Lemma deliver_ok t s :
  ticks_ok s ->
  ticks_ok (deliver t s) /\
  crashed (deliver t s) = crashed s /\
  lp (deliver t s) = lp s /\
  callbacks (deliver t s) = callbacks s /\
  buf (ticks (st (deliver t s)))
  = match buf (ticks (st s)) with [] => [t] | b => b end.
Proof.
  intros (Hc & Ho & Hl). unfold deliver.
  destruct (sendTime_ok (ticks (st s)) t Hc Ho Hl) as (c' & E & Hc' & Ho' & Hl' & Hb).
  rewrite E. unfold ticks_ok. simpl. auto 10.
Qed.

Lemma Reset_st_ticks next d s : ticks (st (state_of (Reset next d s))) = ticks (st s).
Proof.
  unfold Reset. destruct (d <=? 0); [reflexivity|]. simpl.
  destruct (s_closed (reset (st s))); reflexivity.
Qed.

Lemma Stop_st_ticks s : ticks (st (state_of (Stop s))) = ticks (st s).
Proof.
  unfold Stop, close. destruct (s_closed (stop (st s))); [reflexivity|]. simpl.
  destruct (s_closed (reset (st s))); reflexivity.
Qed.

Lemma New_ticks_ok first d clk s : New first d clk = Ok s -> ticks_ok s.
Proof.
  unfold New. destruct (d <=? 0); [discriminate|].
  pose proof (Reset_st_ticks first d
    (mkState (mkST (make_chan 1) make_sync make_sync 0)
             (mkLoop LSelect None None None true) [] [] [] clk None [])) as E.
  destruct (Reset _ _ _) as [s1|msg s1]; [|discriminate].
  intros H. injection H as <-. unfold ticks_ok. simpl in E. rewrite E. simpl. auto.
Qed.

Lemma with_clock_cases {A} (m : M A) s k :
  (exists msg, with_clock m s k = crash msg s) \/
  (exists a c, m (clock s) = Ok (a, c) /\ with_clock m s k = k a (set_clock c s)).
Proof.
  unfold with_clock. destruct (m (clock s)) as [[a c]|msg]; eauto.
Qed.

Lemma step_ticks_ok a s s' : step a s = Some s' -> ticks_ok s -> ticks_ok s'.
Proof.
  unfold step. destruct (crashed s); [discriminate|].
  intros H Hok. destruct a as [next d| | |c| |i|i|k|].
  - injection H as <-. unfold ticks_ok. rewrite Reset_st_ticks. exact Hok.
  - injection H as <-. unfold ticks_ok. rewrite Stop_st_ticks. exact Hok.
  - unfold step_receive in H. destruct (buf (ticks (st s))) eqn:E; [discriminate|].
    injection H as <-. destruct Hok as (Hc & Ho & Hl). unfold ticks_ok. simpl.
    rewrite E in Hl. simpl in Hl. repeat split; auto; lia.
  - unfold step_select in H.
    repeat case_match; simplify_eq; exact Hok.
  - unfold step_loop in H. destruct (pc (lp s)); simplify_eq.
    + unfold ticks_ok. simpl. rewrite st_stopTickerTimer. exact Hok.
    + match goal with |- ticks_ok (with_clock ?m ?s ?k) =>
        destruct (with_clock_cases m s k) as [[msg ->]|(a & c & _ & ->)] end;
        exact Hok.
    + destruct (deliver_ok t s Hok) as (H1 & _). exact H1.
    + unfold ticks_ok. simpl. rewrite st_stopTickerTimer. exact Hok.
    + destruct (existsb is_parked (callbacks s)); exact Hok.
  - unfold step_callback in H.
    destruct (callbacks s !! i) as [[]|]; simplify_eq; try exact Hok.
    + unfold with_clock. simpl.
      destruct (deliver_ok (wall (clock s) (reads (clock s)))
                  (set_clock (mkClock (wall (clock s)) (S (reads (clock s)))) s) Hok)
        as (H1 & _). exact H1.
    + match goal with |- ticks_ok (with_clock ?m ?s ?k) =>
        destruct (with_clock_cases m s k) as [[msg ->]|(a & c & _ & ->)] end;
        exact Hok.
    + destruct (ticker (lp s)); simplify_eq; exact Hok.
  - unfold step_fire_timer in H. repeat case_match; simplify_eq; exact Hok.
  - unfold step_fire_ticker in H. repeat case_match; simplify_eq; exact Hok.
  - injection H as <-. exact Hok.
Qed.

Lemma reachable_ticks_ok s : reachable s -> ticks_ok s.
Proof.
  induction 1 as [first d clk s H | a s s' _ IH H].
  - exact (New_ticks_ok _ _ _ _ H).
  - exact (step_ticks_ok _ _ _ H IH).
Qed.

Lemma run_reachable acts : forall s s', reachable s -> run acts s = Some s' -> reachable s'.
Proof.
  induction acts as [|a acts IH]; simpl; intros s s' Hs H.
  - injection H as <-. exact Hs.
  - destruct (step a s) as [s1|] eqn:E; [|discriminate].
    exact (IH s1 s' (reach_step a s s1 Hs E) H).
Qed.

Lemma at_first_fire_reachable : reachable at_first_fire.
Proof.
  apply (run_reachable first_fire example_ticker); [exact example_ticker_reachable|].
  vm_compute. reflexivity.
Qed.

Lemma at_first_fire_running : crashed at_first_fire = None.
Proof. vm_compute. reflexivity. Qed.

Lemma at_first_fire_CbSend : callbacks at_first_fire !! 0%nat = Some CbSend.
Proof. vm_compute. reflexivity. Qed.

(** C6: the output channel has exactly one slot and never holds more than
    one tick, and both deliveries, the one of the loop for a tick of the
    interval ticker and the one of the timer callback for the first tick,
    always go through without waiting: the tick is stored when the slot is
    free and dropped, leaving the waiting tick in place, when it is not. *)
Theorem deliveries_drop_on_full s :
  reachable s ->
  crashed s = None ->
  cap (C (st s)) = 1%nat /\
  (length (buf (C (st s))) <= 1)%nat /\
  (forall t,
     pc (lp s) = LDeliver t ->
     exists s',
       step Loop s = Some s' /\
       crashed s' = None /\
       pc (lp s') = LSelect /\
       buf (C (st s')) = match buf (C (st s)) with [] => [t] | b => b end) /\
  (forall i,
     callbacks s !! i = Some CbSend ->
     exists s',
       step (Callback i) s = Some s' /\
       crashed s' = None /\
       callbacks s' !! i = Some CbNewTicker /\
       buf (C (st s'))
       = match buf (C (st s)) with [] => [reading (clock s) 0] | b => b end).
Proof.
  intros Hr Hc. pose proof (reachable_ticks_ok s Hr) as Hok.
  unfold C. destruct Hok as (H1 & H2 & H3).
  split; [exact H1|]. split; [exact H3|]. split.
  - intros t Hpc. unfold step, step_loop. rewrite Hc, Hpc.
    destruct (deliver_ok t s (conj H1 (conj H2 H3))) as (_ & Hcr & _ & _ & Hb).
    eexists. split; [reflexivity|]. simpl. rewrite Hcr, Hb. auto.
  - intros i Hi. unfold step, step_callback. rewrite Hc, Hi.
    unfold with_clock, time_Now.
    set (s1 := set_clock _ s).
    destruct (deliver_ok (wall (clock s) (reads (clock s))) s1 (conj H1 (conj H2 H3)))
      as (_ & Hcr & _ & Hcb & Hb).
    eexists. split; [reflexivity|]. simpl. rewrite Hcr, Hcb, Hb. simpl.
    split; [exact Hc|]. split.
    + apply list_lookup_insert_eq. exact (lookup_lt_Some _ _ _ Hi).
    + unfold reading. rewrite Nat.add_0_r. reflexivity.
Qed.

Lemma deliveries_drop_on_full_witness :
  callbacks at_first_fire !! 0%nat = Some CbSend /\
  cap (C (st at_first_fire)) = 1%nat /\
  exists s',
    step (Callback 0) at_first_fire = Some s' /\
    crashed s' = None /\
    callbacks s' !! 0%nat = Some CbNewTicker /\
    buf (C (st s')) = [5000].
Proof.
  split; [exact at_first_fire_CbSend|].
  destruct (deliveries_drop_on_full at_first_fire at_first_fire_reachable
              at_first_fire_running) as (H1 & _ & _ & H4).
  split; [exact H1|].
  destruct (H4 0%nat at_first_fire_CbSend) as (s' & E1 & E2 & E3 & E4).
  exists s'. split; [exact E1|]. split; [exact E2|]. split; [exact E3|].
  rewrite E4. vm_compute. reflexivity.
Defined.

(** In the older revision the plain send has to wait while the slot is
    taken. *)
Lemma Rev0_send_waits c t :
  closed c = false -> has_room c = false -> Rev0.send c t = None.
Proof. intros H1 H2. unfold Rev0.send. rewrite H1, H2. reflexivity. Qed.

(** C9: [Stop] leaves the output channel as it is: the channel behind [C]
    keeps its buffer and is not closed (it is open in every state the program
    can reach), and nothing but the channels [stop] and [reset] changes. *)
Theorem Stop_keeps_ticks s :
  (C (st (state_of (Stop s))) = C (st s) /\
   interval (st (state_of (Stop s))) = interval (st s) /\
   lp (state_of (Stop s)) = lp s /\
   timers (state_of (Stop s)) = timers s /\
   tickers (state_of (Stop s)) = tickers s /\
   callbacks (state_of (Stop s)) = callbacks s) /\
  (reachable s -> closed (C (st (state_of (Stop s)))) = false).
Proof.
  split.
  - unfold Stop, close, C. destruct (s_closed (stop (st s))); [auto 10|]. simpl.
    destruct (s_closed (reset (st s))); simpl; auto 10.
  - intros Hr. unfold C. rewrite Stop_st_ticks.
    destruct (reachable_ticks_ok s Hr) as (_ & H & _). exact H.
Qed.

Lemma Stop_keeps_ticks_witness :
  reachable example_ticker /\
  C (st (state_of (Stop example_ticker))) = C (st example_ticker) /\
  closed (C (st (state_of (Stop example_ticker)))) = false.
Proof.
  destruct (Stop_keeps_ticks example_ticker) as ((H1 & _) & H2).
  split; [exact example_ticker_reachable|]. split; [exact H1|].
  exact (H2 example_ticker_reachable).
Defined.

(** ** The one-shot timer *)

Lemma Reset_frame next d s :
  timers (state_of (Reset next d s)) = timers s /\ lp (state_of (Reset next d s)) = lp s.
Proof.
  unfold Reset. destruct (d <=? 0); [auto|]. simpl.
  destruct (s_closed (reset (st s))); auto.
Qed.

Lemma Stop_frame s :
  timers (state_of (Stop s)) = timers s /\ lp (state_of (Stop s)) = lp s.
Proof.
  unfold Stop, close. destruct (s_closed (stop (st s))); [auto|]. simpl.
  destruct (s_closed (reset (st s))); auto.
Qed.

Lemma stopTickerTimer_timers s :
  resetTimer (lp (stopTickerTimer s)) = None /\
  pc (lp (stopTickerTimer s)) = pc (lp s) /\
  timers (stopTickerTimer s)
  = match resetTimer (lp s) with
    | Some i => alter Timer_Stop i (timers s)
    | None => timers s
    end.
Proof.
  unfold stopTickerTimer. simpl.
  destruct (resetTimer (lp s)) eqn:E; simpl; destruct (ticker (lp s)); simpl; auto.
Qed.

Lemma stopTickerTimer_disarms s :
  timers_ok s ->
  forall i tm, timers (stopTickerTimer s) !! i = Some tm -> t_state tm <> Armed.
Proof.
  intros [Ha _] i tm. destruct (stopTickerTimer_timers s) as (_ & _ & ->).
  destruct (resetTimer (lp s)) as [k|] eqn:E.
  - destruct (decide (k = i)) as [->|Hne].
    + rewrite list_lookup_alter_eq. destruct (timers s !! i) as [t0|]; [|discriminate].
      simpl. intros [= <-]. unfold Timer_Stop. destruct (t_state t0) eqn:E0; simpl; congruence.
    + rewrite list_lookup_alter_ne by exact Hne. intros H1 H2.
      specialize (Ha i tm H1 H2). congruence.
  - intros H1 H2. specialize (Ha i tm H1 H2). congruence.
Qed.

Lemma step_timers_ok a s s' : step a s = Some s' -> timers_ok s -> timers_ok s'.
Proof.
  unfold step. destruct (crashed s); [discriminate|].
  intros H Hok. pose proof Hok as [Ha Hb].
  destruct a as [next d| | |c| |i|i|k|].
  - injection H as <-. destruct (Reset_frame next d s) as [E1 E2].
    unfold timers_ok. rewrite E1, E2. exact Hok.
  - injection H as <-. destruct (Stop_frame s) as [E1 E2].
    unfold timers_ok. rewrite E1, E2. exact Hok.
  - unfold step_receive in H. destruct (buf (ticks (st s))); [discriminate|].
    injection H as <-. exact Hok.
  - unfold step_select in H. destruct (pc (lp s)) eqn:Epc; try discriminate.
    repeat case_match; simplify_eq; (split; [exact Ha | intros ? Hpc; simpl in Hpc; congruence]).
  - unfold step_loop in H. destruct (pc (lp s)) eqn:Epc; simplify_eq.
    + pose proof (stopTickerTimer_disarms s Hok) as Hd.
      destruct (stopTickerTimer_timers s) as (E1 & _ & _).
      split; simpl.
      * intros i tm H1 H2. destruct (Hd i tm H1 H2).
      * intros _ _. exact E1.
    + match goal with |- timers_ok (with_clock ?m ?s ?k) =>
        destruct (with_clock_cases m s k) as [[msg ->]|(w & c & _ & ->)] end.
      * exact Hok.
      * split; simpl; [|intros ? Hpc; simpl in Hpc; congruence].
        intros i tm H1 H2. apply lookup_app_Some in H1 as [H1|[Hlen H1]].
        -- specialize (Ha i tm H1 H2). rewrite (Hb _ eq_refl) in Ha. discriminate.
        -- apply list_lookup_singleton_Some in H1 as [E _]. f_equal. lia.
    + split; simpl; [|intros ? Hpc; simpl in Hpc; congruence].
      unfold deliver. destruct (sendTime _ _); exact Ha.
    + pose proof (stopTickerTimer_disarms s Hok) as Hd.
      split; simpl; [|intros ? Hpc; simpl in Hpc; congruence].
      intros i tm H1 H2. destruct (Hd i tm H1 H2).
    + destruct (existsb is_parked (callbacks s)); (split; simpl; [exact Ha | intros ? Hpc; simpl in Hpc; congruence]).
  - unfold step_callback in H.
    destruct (callbacks s !! i) as [[]|]; simplify_eq; try exact Hok.
    + unfold with_clock, time_Now, deliver. simpl.
      destruct (sendTime _ _); exact Hok.
    + match goal with |- timers_ok (with_clock ?m ?s ?k) =>
        destruct (with_clock_cases m s k) as [[msg ->]|(w & c & _ & ->)] end;
        exact Hok.
    + destruct (ticker (lp s)); simplify_eq; exact Hok.
  - unfold step_fire_timer in H.
    destruct (timers s !! i) as [tm0|] eqn:E0; [|discriminate].
    destruct (t_state tm0) eqn:E1; try discriminate.
    destruct (t_when tm0 <=? _); [|discriminate]. injection H as <-.
    split; simpl; [|exact Hb].
    intros j tm H1 H2. destruct (decide (i = j)) as [->|Hne].
    + rewrite list_lookup_insert_eq in H1 by exact (lookup_lt_Some _ _ _ E0).
      injection H1 as <-. discriminate.
    + rewrite list_lookup_insert_ne in H1 by exact Hne. exact (Ha j tm H1 H2).
  - unfold step_fire_ticker in H. repeat case_match; simplify_eq; exact Hok.
  - injection H as <-. exact Hok.
Qed.

Lemma New_timers_ok first d clk s : New first d clk = Ok s -> timers_ok s.
Proof.
  unfold New, Reset. destruct (d <=? 0); [discriminate|]. simpl.
  intros [= <-]. split; simpl.
  - intros i tm H. destruct i; discriminate H.
  - intros n H. discriminate H.
Qed.

Lemma reachable_timers_ok s : reachable s -> timers_ok s.
Proof.
  induction 1 as [first d clk s H | a s s' _ IH H].
  - exact (New_timers_ok _ _ _ _ H).
  - exact (step_timers_ok _ _ _ H IH).
Qed.

Lemma none_armed (l : list Timer) :
  (forall i tm, l !! i = Some tm -> is_armed tm = false) ->
  List.filter is_armed l = [].
Proof.
  induction l as [|a l IH]; intros H; [reflexivity|]. simpl.
  rewrite (H 0%nat a eq_refl). apply IH. intros i tm Hi. exact (H (S i) tm Hi).
Qed.

Lemma one_armed (l : list Timer) :
  forall r : option nat,
  (forall i tm, l !! i = Some tm -> is_armed tm = true -> r = Some i) ->
  (length (List.filter is_armed l) <= 1)%nat.
Proof.
  induction l as [|a l IH]; intros r H; simpl; [lia|].
  destruct (is_armed a) eqn:E.
  - pose proof (H 0%nat a eq_refl E) as ->.
    rewrite none_armed; [simpl; lia|].
    intros i tm Hi. destruct (is_armed tm) eqn:E'; [|reflexivity].
    pose proof (H (S i) tm Hi E') as Hr. discriminate Hr.
  - apply (IH (pred <$> r)). intros i tm Hi Ha.
    rewrite (H (S i) tm Hi Ha). reflexivity.
Qed.

(** X6: in every state the program can reach at most one one-shot timer is
    armed: the one the loop holds in [resetTimer]. *)
Lemma one_timer_armed s : reachable s -> (live_timers s <= 1)%nat.
Proof.
  intros Hr. destruct (reachable_timers_ok s Hr) as [Ha _].
  unfold live_timers. apply (one_armed _ (resetTimer (lp s))).
  intros i tm Hi Harmed. apply (Ha i tm Hi).
  unfold is_armed in Harmed. destruct (t_state tm); congruence.
Qed.

(** ** Races between the timer callback, the loop and Stop *)

(** C7: runs in which a tick is delivered after [Stop].  In the first the
    callback of the one-shot timer passes the check of the stop channel,
    [Stop] closes it, and the callback then puts its tick on the output
    channel; in the second the select of the loop takes a waiting tick of the
    interval ticker although the stop channel is closed, and delivers it. *)
Theorem tick_delivered_after_Stop :
  (exists s,
     run stop_race example_ticker = Some s /\
     crashed s = None /\
     s_closed (stop (st s)) = true /\
     history s = [EvStop; EvDelivered 5000] /\
     buf (C (st s)) = [5000] /\
     delivered_after_stop (history s) = true) /\
  (exists s,
     run stop_race_tick example_ticker = Some s /\
     crashed s = None /\
     history s = [EvDelivered 5000; EvReceived 5000; EvStop; EvDelivered 7000] /\
     buf (C (st s)) = [7000] /\
     delivered_after_stop (history s) = true).
Proof.
  split; eexists; (split; [vm_compute; reflexivity|]); repeat split.
Qed.

(** C8: a run that ends with two interval tickers running, the first of
    which no variable of the loop refers to any more. *)
Theorem two_tickers_running :
  exists s,
    run reset_race example_ticker = Some s /\
    crashed s = None /\
    live_tickers s = 2%nat /\
    ticker (lp s) = Some 1%nat /\
    (k_running <$> tickers s) = [true; true].
Proof.
  eexists. split; [vm_compute; reflexivity|]. repeat split.
Qed.

(** After the loop has returned, a callback that was past its check still
    makes a ticker, which nothing stops any more. *)
Lemma ticker_made_after_exit :
  exists s,
    run stop_leak example_ticker = Some s /\
    crashed s = None /\
    pc (lp s) = LExited /\
    callbacks s = [CbDone] /\
    live_tickers s = 1%nat.
Proof.
  eexists. split; [vm_compute; reflexivity|]. repeat split.
Qed.

(** * Further properties *)

(** ** Example states *)

Lemma after_reachable acts : reachable (after acts).
Proof.
  unfold after. destruct (run acts example_ticker) as [s|] eqn:E.
  - exact (run_reachable acts example_ticker s example_ticker_reachable E).
  - exact example_ticker_reachable.
Qed.



(** ** nextRun: the lattice does not depend on which of its points is the anchor *)

Lemma quot_shift e k i :
  0 < i -> 0 <= e -> 0 <= e - k * i -> Z.quot (e - k * i) i = Z.quot e i - k.
Proof.
  intros Hi He Hek.
  rewrite !Z.quot_div_nonneg by lia.
  replace (e - k * i) with (e + (- k) * i) by ring.
  rewrite Z.div_add by lia. ring.
Qed.

(** X1: for a positive interval, two anchors in the past that differ by a
    multiple of the interval give the same next run (as long as the elapsed
    times plus one interval fit in a Duration): the schedule depends only on
    the phase of the anchor. *)
Theorem nextRun_phase anchor interval k c :
  0 < interval ->
  anchor <= reading c 0 ->
  anchor + k * interval <= reading c 0 ->
  monotone c ->
  reading c 1 - anchor + interval <= maxDuration ->
  reading c 1 - (anchor + k * interval) + interval <= maxDuration ->
  value (nextRun (anchor + k * interval) interval c)
  = value (nextRun anchor interval c).
Proof.
  intros Hi Ha Hk Hm Hr1 Hr2.
  assert (H01 : reading c 0 <= reading c 1) by (apply Hm; lia).
  set (e := reading c 1 - anchor) in *.
  assert (He : 0 <= e) by (unfold e; lia).
  assert (Hek : 0 <= e - k * interval) by (unfold e; lia).
  pose proof (Z.quot_rem' e interval) as Hq.
  pose proof (Z.rem_bound_pos e interval He Hi) as Hb.
  pose proof (quot_shift e k interval Hi He Hek) as Hs.
  assert (Hq0 : 0 <= Z.quot e interval) by (apply Z.quot_pos; lia).
  assert (Hq1 : 0 <= Z.quot (e - k * interval) interval) by (apply Z.quot_pos; lia).
  replace (reading c 1 - (anchor + k * interval)) with (e - k * interval) in Hr2
    by (unfold e; ring).
  rewrite (nextRun_past_exact anchor interval c); [| lia | lia | |].
  - rewrite (nextRun_past_exact (anchor + k * interval) interval c); [| lia | lia | |].
    + replace (reading c 1 - (anchor + k * interval)) with (e - k * interval)
        by (unfold e; ring).
      fold e. rewrite Hs. f_equal. ring.
    + replace (reading c 1 - (anchor + k * interval)) with (e - k * interval)
        by (unfold e; ring).
      unfold in_int64, minDuration, maxDuration in *. lia.
    + replace (reading c 1 - (anchor + k * interval)) with (e - k * interval)
        by (unfold e; ring).
      rewrite Hs. unfold in_int64, minDuration, maxDuration in *. nia.
  - fold e. unfold in_int64, minDuration, maxDuration in *. lia.
  - fold e. unfold in_int64, minDuration, maxDuration in *. nia.
Qed.

Lemma nextRun_phase_witness :
  value (nextRun (40 + 5 * 7) 7 (clockFrom 100 1))
  = value (nextRun 40 7 (clockFrom 100 1)).
Proof.
  apply (nextRun_phase 40 7 5 (clockFrom 100 1)).
  - lia.
  - vm_compute. intros H; discriminate H.
  - vm_compute. intros H; discriminate H.
  - apply clockFrom_monotone. lia.
  - vm_compute. intros H; discriminate H.
  - vm_compute. intros H; discriminate H.
Defined.

(** X2: for a positive interval, an anchor that is now or less than one
    interval ago gives the anchor plus one interval: a ticker made with the
    current time as its anchor has its first run one interval later, not at
    once. *)
Theorem nextRun_first_interval anchor interval c :
  0 < interval ->
  interval <= maxDuration ->
  monotone c ->
  anchor <= reading c 0 ->
  reading c 1 - anchor < interval ->
  value (nextRun anchor interval c) = Some (anchor + interval).
Proof.
  intros Hi Hmax Hm Ha Hlt.
  assert (H01 : reading c 0 <= reading c 1) by (apply Hm; lia).
  assert (Hq : Z.quot (reading c 1 - anchor) interval = 0)
    by (apply Z.quot_small; lia).
  rewrite (nextRun_past_exact anchor interval c); rewrite ?Hq.
  - f_equal. ring.
  - lia.
  - lia.
  - unfold in_int64, minDuration, maxDuration in *. lia.
  - unfold in_int64, minDuration, maxDuration in *. lia.
Qed.

Lemma nextRun_first_interval_witness :
  value (nextRun 1000 100 (clockFrom 1000 1)) = Some 1100.
Proof.
  apply (nextRun_first_interval 1000 100 (clockFrom 1000 1)).
  - lia.
  - vm_compute. intros H; discriminate H.
  - apply clockFrom_monotone. lia.
  - vm_compute. intros H; discriminate H.
  - vm_compute. reflexivity.
Defined.

(** ** TestNextRun *)

Lemma reading_tick c k :
  reading (mkClock (wall c) (S (reads c))) k = reading c (S k).
Proof. unfold reading. simpl. f_equal. lia. Qed.

Lemma Time_Truncate_multiple t d :
  0 < d ->
  Time_Truncate t d = d * (t / d) /\ Time_Truncate t d <= t < Time_Truncate t d + d.
Proof.
  intros Hd. unfold Time_Truncate, Time_Add.
  destruct (Z.leb_spec d 0); [lia|].
  pose proof (Z.div_mod t d) as H1. pose proof (Z.mod_pos_bound t d Hd) as H2.
  lia.
Qed.

Lemma Time_Round_half_up t h :
  0 < h -> Time_Round (t + h) (2 * h) = (t / (2 * h) + 1) * (2 * h).
Proof.
  intros Hh. unfold Time_Round, Time_Add, lessThanHalf.
  destruct (Z.leb_spec (2 * h) 0); [lia|].
  set (i := 2 * h) in *.
  pose proof (Z.div_mod t i) as H1.
  pose proof (Z.mod_pos_bound t i) as H2.
  set (q := t / i) in *. set (x := t mod i) in *.
  destruct (Z_lt_dec (x + h) i) as [Hlt|Hge].
  - assert (E : (t + h) mod i = x + h)
      by (symmetry; apply (Z.mod_unique_pos _ _ q); lia).
    rewrite E. destruct (Z.ltb_spec (x + h + (x + h)) i); lia.
  - assert (E : (t + h) mod i = x + h - i)
      by (symmetry; apply (Z.mod_unique_pos _ _ (q + 1)); lia).
    rewrite E. destruct (Z.ltb_spec (x + h - i + (x + h - i)) i); lia.
Qed.

(** From an anchor that is a multiple of the interval and not after now,
    the next lattice point is the next multiple of the interval after now. *)
Lemma next_multiple a m i now :
  0 < i -> a = i * m -> a <= now ->
  a + (Z.quot (now - a) i + 1) * i = (now / i + 1) * i.
Proof.
  intros Hi -> Ha.
  rewrite Z.quot_div_nonneg by lia.
  replace (now - i * m) with (now + (- m) * i) by ring.
  rewrite Z.div_add by lia. ring.
Qed.

Lemma reading_at c n k : reading (mkClock (wall c) (reads c + n)) k = reading c (n + k).
Proof. unfold reading. simpl. f_equal. lia. Qed.

(** X3: [TestNextRun] on a clock that does not run backwards, read before
    the year 2345 and within 2^62 nanoseconds from its first to its last
    reading: the case distantFuture passes, and the case startInPast passes
    exactly when the reading its expectation was computed from and the
    reading [nextRun] takes with [time.Since] lie in the same quarter of an
    hour. *)
Theorem TestNextRun_outcome c :
  monotone c ->
  reading c 2 < date_2345 ->
  reading c 4 - reading c 0 <= 2 ^ 62 ->
  value (TestNextRun c)
  = Some [true; reading c 4 / (15 * minute) =? reading c 1 / (15 * minute)].
Proof.
  intros Hm Hd Hb.
  assert (H03 : reading c 0 <= reading c 3) by (apply Hm; lia).
  assert (H34 : reading c 3 <= reading c 4) by (apply Hm; lia).
  pose (i := 900000000000). pose (D := 86400000000000).
  assert (Hi : 0 < i) by reflexivity.
  change (15 * minute) with i.
  destruct (Time_Truncate_multiple (reading c 0) D eq_refl) as (Ea & Hlo & Hhi).
  set (a := Time_Truncate (reading c 0) D) in *.
  assert (Em : a = i * (96 * (reading c 0 / D))) by (unfold i, D in *; lia).
  (* the clock after two, three and five readings *)
  set (c2 := mkClock (wall c) (reads c + 2)).
  set (c3 := mkClock (wall c) (reads c + 3)).
  set (c5 := mkClock (wall c) (reads c + 5)).
  (* distantFuture *)
  assert (E1 : nextRun date_2345 minute c2 = Ok (date_2345, c3)).
  { rewrite nextRun_future_eq.
    - unfold c2, c3. simpl. do 3 f_equal. lia.
    - unfold c2. rewrite reading_at. exact Hd. }
  (* startInPast *)
  assert (Hin1 : in_int64 (reading c 4 - a))
    by (unfold in_int64, minDuration, maxDuration, i, D in *; lia).
  pose proof (next_multiple a _ i (reading c 4) Hi Em ltac:(lia)) as Enext.
  pose proof (Z.div_mod (reading c 4) i ltac:(lia)) as Hdm.
  pose proof (Z.mod_pos_bound (reading c 4) i Hi) as Hmb.
  assert (Hin2 : in_int64 ((Z.quot (reading c 4 - a) i + 1) * i))
    by (unfold in_int64, minDuration, maxDuration, i, D in *; lia).
  assert (E2 : nextRun a i c3 = Ok ((reading c 4 / i + 1) * i, c5)).
  { rewrite nextRun_past_eq by (unfold c3; rewrite reading_at; simpl; lia).
    unfold c3 at 1. rewrite reading_at. simpl Nat.add.
    rewrite (Time_Sub_exact _ _ Hin1). unfold Dur.div.
    destruct (Z.eqb_spec i 0); [lia|]. unfold Time_Add.
    rewrite pastIterations_product, (wrap64_small _ Hin2), Enext.
    unfold c3, c5. simpl. do 3 f_equal. lia. }
  assert (E3 : Time_Round (Time_Add (reading c 1) (15 * (30 * second))) i
               = (reading c 1 / i + 1) * i).
  { unfold Time_Add. change (15 * (30 * second)) with 450000000000.
    change i with (2 * 450000000000).
    apply Time_Round_half_up. reflexivity. }
  unfold TestNextRun, startInPast.
  unfold bind at 1 2 3. unfold time_Now at 1 2. cbn [wall reads].
  unfold ret at 1. unfold bind at 1.
  unfold run_case at 1. unfold bind at 1.
  change (tc_firstStart distantFuture) with date_2345.
  change (tc_interval distantFuture) with minute.
  change (tc_expected distantFuture) with date_2345.
  replace (mkClock (wall c) (S (S (reads c)))) with c2
    by (unfold c2; f_equal; lia).
  rewrite E1. unfold ret at 1. rewrite Z.eqb_refl.
  unfold bind at 1. unfold run_case, bind at 1. cbn [tc_firstStart tc_interval tc_expected].
  change (24 * hour) with D. change (15 * minute) with i.
  replace (wall c (reads c)) with (reading c 0)
    by (unfold reading; f_equal; lia).
  replace (wall c (S (reads c))) with (reading c 1)
    by (unfold reading; f_equal; lia).
  fold a. rewrite E2, E3. unfold ret, value. do 3 f_equal.
  destruct (Z.eqb_spec (reading c 4 / i) (reading c 1 / i)) as [E|E].
  - rewrite E. apply Z.eqb_refl.
  - apply Z.eqb_neq. nia.
Qed.

Lemma TestNextRun_outcome_witness :
  value (TestNextRun test_clock) = Some [true; true].
Proof.
  rewrite (TestNextRun_outcome test_clock).
  - vm_compute. reflexivity.
  - apply clockFrom_monotone. lia.
  - vm_compute. reflexivity.
  - vm_compute. intros H; discriminate H.
Defined.

(** ** The stored interval *)

Lemma deliver_frame t s :
  interval (st (deliver t s)) = interval (st s) /\
  reset (st (deliver t s)) = reset (st s) /\
  stop (st (deliver t s)) = stop (st s) /\
  lp (deliver t s) = lp s /\
  timers (deliver t s) = timers s /\
  tickers (deliver t s) = tickers s /\
  callbacks (deliver t s) = callbacks s /\
  clock (deliver t s) = clock s.
Proof. unfold deliver. destruct (sendTime _ _); simpl; auto 10. Qed.

Lemma Stop_st_interval s : interval (st (state_of (Stop s))) = interval (st s).
Proof.
  unfold Stop, close. destruct (s_closed (stop (st s))); [reflexivity|]. simpl.
  destruct (s_closed (reset (st s))); reflexivity.
Qed.

Lemma step_interval_pos a s s' :
  step a s = Some s' -> 0 < interval (st s) -> 0 < interval (st s').
Proof.
  unfold step. destruct (crashed s); [discriminate|].
  intros H Hpos. destruct a as [next d| | |c| |i|i|k|].
  - injection H as <-. unfold Reset. destruct (Z.leb_spec d 0); [exact Hpos|].
    simpl. destruct (s_closed (reset (st s))); simpl; lia.
  - injection H as <-. rewrite Stop_st_interval. exact Hpos.
  - unfold step_receive in H. destruct (buf (ticks (st s))); [discriminate|].
    injection H as <-. exact Hpos.
  - unfold step_select in H. repeat case_match; simplify_eq; exact Hpos.
  - unfold step_loop in H. destruct (pc (lp s)); simplify_eq; simpl.
    + rewrite st_stopTickerTimer. exact Hpos.
    + match goal with |- context [with_clock ?m ?s ?k] =>
        destruct (with_clock_cases m s k) as [[msg ->]|(a & c & _ & ->)] end;
        exact Hpos.
    + destruct (deliver_frame t s) as (-> & _). exact Hpos.
    + rewrite st_stopTickerTimer. exact Hpos.
    + destruct (existsb is_parked (callbacks s)); exact Hpos.
  - unfold step_callback in H.
    destruct (callbacks s !! i) as [[]|]; simplify_eq; simpl; try exact Hpos.
    + unfold with_clock, time_Now. simpl.
      match goal with |- context [deliver ?t ?s] =>
        destruct (deliver_frame t s) as (-> & _) end. exact Hpos.
    + match goal with |- context [with_clock ?m ?s ?k] =>
        destruct (with_clock_cases m s k) as [[msg ->]|(a & c & _ & ->)] end;
        exact Hpos.
    + destruct (ticker (lp s)); simplify_eq; exact Hpos.
  - unfold step_fire_timer in H. repeat case_match; simplify_eq; exact Hpos.
  - unfold step_fire_ticker in H. repeat case_match; simplify_eq; exact Hpos.
  - injection H as <-. exact Hpos.
Qed.

Lemma New_interval_pos first d clk s : New first d clk = Ok s -> 0 < interval (st s).
Proof.
  unfold New, Reset. destruct (Z.leb_spec d 0); [discriminate|]. simpl.
  intros [= <-]. simpl. lia.
Qed.

Lemma reachable_interval_pos s : reachable s -> 0 < interval (st s).
Proof.
  induction 1 as [first d clk s H | a s s' _ IH H].
  - exact (New_interval_pos _ _ _ _ H).
  - exact (step_interval_pos _ _ _ H IH).
Qed.

Lemma nextRun_returns firstStart d c :
  d <> 0 -> exists r c', nextRun firstStart d c = Ok (r, c').
Proof.
  intros Hd. destruct (Z_lt_dec (reading c 0) firstStart) as [Hf|Hp].
  - rewrite nextRun_future_eq by exact Hf. eauto.
  - rewrite nextRun_past_eq by exact Hp. unfold Dur.div.
    destruct (Z.eqb_spec d 0); [contradiction|]. eauto.
Qed.

(** X4: in every state the program can reach the interval stored in the
    handle is positive, so the [nextRun] of the loop never divides by zero
    and the [time.NewTicker] of the timer callback never panics. *)
Theorem interval_stays_positive s :
  reachable s ->
  0 < interval (st s) /\
  (forall nextStart c, exists r c', nextRun nextStart (interval (st s)) c = Ok (r, c')) /\
  (forall c,
     exists k c',
       time_NewTicker (interval (st s)) c = Ok (k, c') /\
       k_period k = interval (st s) /\ k_running k = true).
Proof.
  intros Hr. pose proof (reachable_interval_pos s Hr) as Hpos.
  split; [exact Hpos|]. split.
  - intros nextStart c. apply nextRun_returns. lia.
  - intros c. unfold time_NewTicker.
    destruct (Z.leb_spec (interval (st s)) 0); [lia|].
    eexists _, _. split; [reflexivity|]. split; reflexivity.
Qed.

Lemma interval_stays_positive_witness :
  reachable example_ticker /\ 0 < interval (st example_ticker).
Proof.
  split; [exact example_ticker_reachable|].
  exact (proj1 (interval_stays_positive example_ticker example_ticker_reachable)).
Defined.

(** ** Arming the one-shot timer *)





Lemma one_timer_armed_witness :
  reachable at_armed /\ live_timers at_armed = 1%nat /\ (live_timers at_armed <= 1)%nat.
Proof.
  split; [exact (after_reachable _)|]. split; [vm_compute; reflexivity|].
  exact (one_timer_armed at_armed (after_reachable _)).
Defined.

(** ** After the loop has returned *)

Lemma stopTickerTimer_frame s :
  callbacks (stopTickerTimer s) = callbacks s /\
  crashed (stopTickerTimer s) = crashed s /\
  clock (stopTickerTimer s) = clock s /\
  history (stopTickerTimer s) = history s /\
  pc (lp (stopTickerTimer s)) = pc (lp s) /\
  nextTickUpdated (lp (stopTickerTimer s)) = nextTickUpdated (lp s) /\
  nextTick (lp (stopTickerTimer s)) = None /\
  ticker (lp (stopTickerTimer s)) = None /\
  length (timers (stopTickerTimer s)) = length (timers s).
Proof.
  unfold stopTickerTimer. simpl.
  destruct (resetTimer (lp s)) eqn:E1; simpl;
    destruct (ticker (lp s)) eqn:E2; simpl;
    repeat split; first [assumption | apply length_alter].
Qed.

Lemma step_exit_ok a s s' :
  step a s = Some s' -> timers_ok s -> exit_ok s -> exit_ok s'.
Proof.
  unfold step. destruct (crashed s); [discriminate|].
  intros H Htm Hok. pose proof Hok as [Ha Hb].
  destruct a as [next d| | |c| |i|i|k|].
  - injection H as <-. destruct (Reset_frame next d s) as [E1 E2].
    unfold exit_ok. rewrite E1, E2. exact Hok.
  - injection H as <-. destruct (Stop_frame s) as [E1 E2].
    unfold exit_ok. rewrite E1, E2. exact Hok.
  - unfold step_receive in H. destruct (buf (ticks (st s))); [discriminate|].
    injection H as <-. exact Hok.
  - unfold step_select in H. destruct (pc (lp s)) eqn:Epc; try discriminate.
    repeat case_match; simplify_eq;
      (split; simpl; [intros [Hpc|Hpc]; congruence | intros Hpc; congruence]).
  - unfold step_loop in H. destruct (pc (lp s)) eqn:Epc; simplify_eq.
    + split; simpl; [intros [Hpc|Hpc]; discriminate | intros Hpc; discriminate].
    + match goal with |- exit_ok (with_clock ?m ?s ?k) =>
        destruct (with_clock_cases m s k) as [[msg ->]|(w & c & _ & ->)] end.
      * split; simpl; [intros [Hpc|Hpc]; congruence | intros Hpc; congruence].
      * split; simpl; [intros [Hpc|Hpc]; discriminate | intros Hpc; discriminate].
    + split; simpl; [intros [Hpc|Hpc]; discriminate | intros Hpc; discriminate].
    + split; simpl; [|intros Hpc; discriminate].
      intros _. exact (stopTickerTimer_disarms s Htm).
    + destruct (existsb is_parked (callbacks s));
        (split; simpl; [intros _; apply Ha; auto | reflexivity]).
  - unfold step_callback in H.
    destruct (callbacks s !! i) as [[]|]; simplify_eq; try exact Hok.
    + unfold with_clock, time_Now, deliver. simpl.
      destruct (sendTime _ _); exact Hok.
    + match goal with |- exit_ok (with_clock ?m ?s ?k) =>
        destruct (with_clock_cases m s k) as [[msg ->]|(w & c & _ & ->)] end;
        exact Hok.
    + destruct (ticker (lp s)); simplify_eq; exact Hok.
  - unfold step_fire_timer in H.
    destruct (timers s !! i) as [tm0|] eqn:E0; [|discriminate].
    destruct (t_state tm0) eqn:E1; try discriminate.
    destruct (t_when tm0 <=? _); [|discriminate]. injection H as <-.
    split; simpl; [|exact Hb].
    intros Hpc j tm H1. destruct (decide (i = j)) as [->|Hne].
    + rewrite list_lookup_insert_eq in H1 by exact (lookup_lt_Some _ _ _ E0).
      injection H1 as <-. discriminate.
    + rewrite list_lookup_insert_ne in H1 by exact Hne. exact (Ha Hpc j tm H1).
  - unfold step_fire_ticker in H. repeat case_match; simplify_eq; exact Hok.
  - injection H as <-. exact Hok.
Qed.

Lemma New_exit_ok first d clk s : New first d clk = Ok s -> exit_ok s.
Proof.
  unfold New, Reset. destruct (d <=? 0); [discriminate|]. simpl.
  intros [= <-]. split; simpl; [intros [H|H]; discriminate | intros H; discriminate].
Qed.

Lemma reachable_exit_ok s : reachable s -> exit_ok s.
Proof.
  induction 1 as [first d clk s H | a s s' Hr IH H].
  - exact (New_exit_ok _ _ _ _ H).
  - exact (step_exit_ok _ _ _ H (reachable_timers_ok s Hr) IH).
Qed.

Lemma step_pc_exited a s s' :
  step a s = Some s' -> pc (lp s) = LExited -> pc (lp s') = LExited.
Proof.
  unfold step. destruct (crashed s); [discriminate|].
  intros H Hpc. destruct a as [next d| | |c| |i|i|k|].
  - injection H as <-. destruct (Reset_frame next d s) as [_ ->]. exact Hpc.
  - injection H as <-. destruct (Stop_frame s) as [_ ->]. exact Hpc.
  - unfold step_receive in H. destruct (buf (ticks (st s))); [discriminate|].
    injection H as <-. exact Hpc.
  - unfold step_select in H. rewrite Hpc in H. discriminate.
  - unfold step_loop in H. rewrite Hpc in H. discriminate.
  - unfold step_callback in H.
    destruct (callbacks s !! i) as [[]|]; simplify_eq; try exact Hpc.
    + unfold with_clock, time_Now, deliver. simpl.
      destruct (sendTime _ _); exact Hpc.
    + match goal with |- context [with_clock ?m ?s ?k] =>
        destruct (with_clock_cases m s k) as [[msg ->]|(w & c & _ & ->)] end;
        exact Hpc.
    + destruct (ticker (lp s)); simplify_eq; exact Hpc.
  - unfold step_fire_timer in H. repeat case_match; simplify_eq; exact Hpc.
  - unfold step_fire_ticker in H. repeat case_match; simplify_eq; exact Hpc.
  - injection H as <-. exact Hpc.
Qed.

Lemma exited_no_timer s :
  reachable s -> pc (lp s) = LExited -> live_timers s = 0%nat.
Proof.
  intros Hr Hpc. destruct (reachable_exit_ok s Hr) as [Ha _].
  unfold live_timers. rewrite none_armed; [reflexivity|].
  intros i tm Hi. specialize (Ha (or_intror Hpc) i tm Hi).
  unfold is_armed. destruct (t_state tm); congruence.
Qed.

(** X7: once the loop has returned, no one-shot timer is armed and the
    variable [nextTickUpdated] is nil, and this stays so whatever happens
    next: the loop never runs again and no timer is armed again. *)
Theorem loop_exit_is_final s :
  reachable s ->
  pc (lp s) = LExited ->
  live_timers s = 0%nat /\
  nextTickUpdated (lp s) = false /\
  (forall c, step (Select c) s = None) /\
  step Loop s = None /\
  (forall a s', step a s = Some s' -> pc (lp s') = LExited /\ live_timers s' = 0%nat).
Proof.
  intros Hr Hpc. split; [exact (exited_no_timer s Hr Hpc)|].
  split; [exact (proj2 (reachable_exit_ok s Hr) Hpc)|].
  split; [|split].
  - intros c. unfold step, step_select. rewrite Hpc. destruct (crashed s); reflexivity.
  - unfold step, step_loop. rewrite Hpc. destruct (crashed s); reflexivity.
  - intros a s' H. pose proof (step_pc_exited a s s' H Hpc) as Hpc'.
    split; [exact Hpc'|].
    exact (exited_no_timer s' (reach_step a s s' Hr H) Hpc').
Qed.

Lemma at_exited_pc : pc (lp at_exited) = LExited.
Proof. vm_compute. reflexivity. Qed.

Lemma loop_exit_is_final_witness :
  pc (lp at_exited) = LExited /\
  live_timers at_exited = 0%nat /\
  nextTickUpdated (lp at_exited) = false /\
  (forall a s', step a at_exited = Some s' ->
                pc (lp s') = LExited /\ live_timers s' = 0%nat).
Proof.
  destruct (loop_exit_is_final at_exited (after_reachable _) at_exited_pc)
    as (H1 & H2 & _ & _ & H5).
  split; [exact at_exited_pc|]. split; [exact H1|]. split; [exact H2 | exact H5].
Defined.

(** ** What the consumer sees *)

Lemma delivered_snoc h e :
  delivered (h ++ [e])
  = delivered h ++ match e with EvDelivered t => [t] | _ => [] end.
Proof.
  induction h as [|x h IH]; simpl.
  - destruct e; reflexivity.
  - destruct x; simpl; rewrite IH; reflexivity.
Qed.

Lemma received_snoc h e :
  received (h ++ [e])
  = received h ++ match e with EvReceived t => [t] | _ => [] end.
Proof.
  induction h as [|x h IH]; simpl.
  - destruct e; reflexivity.
  - destruct x; simpl; rewrite IH; reflexivity.
Qed.

Lemma deliver_fifo t s : fifo_ok s -> fifo_ok (deliver t s).
Proof.
  unfold fifo_ok, deliver, sendTime. intros H.
  destruct (closed (ticks (st s))); [exact H|].
  destruct (has_room (ticks (st s))); simpl.
  - rewrite delivered_snoc, received_snoc, H. simpl.
    rewrite app_nil_r, app_assoc. reflexivity.
  - rewrite delivered_snoc, received_snoc, H. simpl.
    rewrite !app_nil_r. reflexivity.
Qed.

Lemma Reset_history next d s :
  history (state_of (Reset next d s)) = history s.
Proof.
  unfold Reset. destruct (d <=? 0); [reflexivity|]. simpl.
  destruct (s_closed (reset (st s))); reflexivity.
Qed.

Lemma delivered_app h1 h2 : delivered (h1 ++ h2) = delivered h1 ++ delivered h2.
Proof.
  induction h1 as [|x h1 IH]; simpl; [reflexivity|].
  destruct x; simpl; rewrite IH; reflexivity.
Qed.

Lemma received_app h1 h2 : received (h1 ++ h2) = received h1 ++ received h2.
Proof.
  induction h1 as [|x h1 IH]; simpl; [reflexivity|].
  destruct x; simpl; rewrite IH; reflexivity.
Qed.

Lemma parked_panics_no_ticks c :
  delivered (parked_panics c) = [] /\ received (parked_panics c) = [].
Proof.
  unfold parked_panics. induction (s_senders c) as [|x l [IH1 IH2]]; simpl; auto.
Qed.

Lemma Stop_history s :
  delivered (history (state_of (Stop s))) = delivered (history s) /\
  received (history (state_of (Stop s))) = received (history s).
Proof.
  unfold Stop, close. destruct (s_closed (stop (st s))); [auto|]. simpl.
  destruct (parked_panics_no_ticks (reset (st s))) as [E1 E2].
  destruct (s_closed (reset (st s))); simpl;
    rewrite !delivered_app, !received_app; simpl; rewrite ?E1, ?E2, !app_nil_r; auto.
Qed.

Lemma step_fifo a s s' : step a s = Some s' -> fifo_ok s -> fifo_ok s'.
Proof.
  unfold step. destruct (crashed s); [discriminate|].
  intros H Hok. destruct a as [next d| | |c| |i|i|k|].
  - injection H as <-. unfold fifo_ok.
    rewrite Reset_history, Reset_st_ticks. exact Hok.
  - injection H as <-. unfold fifo_ok. destruct (Stop_history s) as [-> ->].
    rewrite Stop_st_ticks. exact Hok.
  - unfold step_receive in H. destruct (buf (ticks (st s))) as [|t l] eqn:E; [discriminate|].
    injection H as <-. unfold fifo_ok in *. simpl.
    rewrite delivered_snoc, received_snoc, Hok, E, app_nil_r, <- app_assoc.
    reflexivity.
  - unfold step_select in H. repeat case_match; simplify_eq; exact Hok.
  - unfold step_loop in H. destruct (pc (lp s)); simplify_eq.
    + unfold fifo_ok. simpl. rewrite st_stopTickerTimer.
      destruct (stopTickerTimer_frame s) as (_ & _ & _ & -> & _). exact Hok.
    + match goal with |- fifo_ok (with_clock ?m ?s ?k) =>
        destruct (with_clock_cases m s k) as [[msg ->]|(w & c & _ & ->)] end;
        exact Hok.
    + exact (deliver_fifo t s Hok).
    + unfold fifo_ok. simpl. rewrite st_stopTickerTimer.
      destruct (stopTickerTimer_frame s) as (_ & _ & _ & -> & _). exact Hok.
    + destruct (existsb is_parked (callbacks s)); exact Hok.
  - unfold step_callback in H.
    destruct (callbacks s !! i) as [[]|]; simplify_eq; try exact Hok.
    + unfold with_clock, time_Now. simpl.
      match goal with |- fifo_ok (set_callbacks _ (deliver ?t ?s)) =>
        exact (deliver_fifo t s Hok) end.
    + match goal with |- fifo_ok (with_clock ?m ?s ?k) =>
        destruct (with_clock_cases m s k) as [[msg ->]|(w & c & _ & ->)] end;
        exact Hok.
    + destruct (ticker (lp s)); simplify_eq; exact Hok.
  - unfold step_fire_timer in H. repeat case_match; simplify_eq; exact Hok.
  - unfold step_fire_ticker in H. repeat case_match; simplify_eq; exact Hok.
  - injection H as <-. exact Hok.
Qed.

Lemma New_fifo first d clk s : New first d clk = Ok s -> fifo_ok s.
Proof.
  unfold New, Reset. destruct (d <=? 0); [discriminate|]. simpl.
  intros [= <-]. reflexivity.
Qed.

(** X8: in every state the program can reach, the ticks put on the output
    channel are, in order, the ticks the consumer has received followed by
    the tick that waits in [C]: the consumer sees the delivered ticks in the
    order of delivery, none twice, and nothing that was not delivered. *)
Theorem ticks_fifo s :
  reachable s ->
  delivered (history s) = received (history s) ++ buf (C (st s)).
Proof.
  induction 1 as [first d clk s H | a s s' _ IH H].
  - exact (New_fifo _ _ _ _ H).
  - exact (step_fifo _ _ _ H IH).
Qed.

Lemma ticks_fifo_witness :
  delivered (history (after stop_race_tick)) = [5000; 7000] /\
  received (history (after stop_race_tick)) = [5000] /\
  buf (C (st (after stop_race_tick))) = [7000] /\
  delivered (history (after stop_race_tick))
  = received (history (after stop_race_tick)) ++ buf (C (st (after stop_race_tick))).
Proof.
  split; [vm_compute; reflexivity|]. split; [vm_compute; reflexivity|].
  split; [vm_compute; reflexivity|].
  exact (ticks_fifo (after stop_race_tick) (after_reachable _)).
Defined.

Lemma deliver_full t0 t s :
  ticks_ok s -> buf (ticks (st s)) = [t] ->
  buf (ticks (st (deliver t0 s))) = [t] /\
  delivered (history (deliver t0 s)) = delivered (history s).
Proof.
  intros (Hc & Ho & _) Hb. unfold deliver, sendTime, has_room.
  rewrite Ho, Hb, Hc. simpl. rewrite delivered_snoc, app_nil_r. auto.
Qed.

Lemma step_keeps_waiting a s s' t :
  step a s = Some s' -> a <> Receive -> ticks_ok s ->
  buf (ticks (st s)) = [t] ->
  buf (ticks (st s')) = [t] /\ delivered (history s') = delivered (history s).
Proof.
  unfold step. destruct (crashed s); [discriminate|].
  intros H Hne Hok Hb. destruct a as [next d| | |c| |i|i|k|].
  - injection H as <-. rewrite Reset_history, Reset_st_ticks. auto.
  - injection H as <-. destruct (Stop_history s) as [-> _].
    rewrite Stop_st_ticks. auto.
  - contradiction.
  - unfold step_select in H. repeat case_match; simplify_eq; auto.
  - unfold step_loop in H. destruct (pc (lp s)); simplify_eq; simpl.
    + rewrite st_stopTickerTimer.
      destruct (stopTickerTimer_frame s) as (_ & _ & _ & -> & _). auto.
    + match goal with |- context [with_clock ?m ?s ?k] =>
        destruct (with_clock_cases m s k) as [[msg ->]|(w & c & _ & ->)] end;
        auto.
    + exact (deliver_full t0 t s Hok Hb).
    + rewrite st_stopTickerTimer.
      destruct (stopTickerTimer_frame s) as (_ & _ & _ & -> & _). auto.
    + destruct (existsb is_parked (callbacks s)); auto.
  - unfold step_callback in H.
    destruct (callbacks s !! i) as [[]|]; simplify_eq; auto.
    + unfold with_clock, time_Now. simpl.
      match goal with |- context [deliver ?t0 ?s0] =>
        exact (deliver_full t0 t s0 Hok Hb) end.
    + match goal with |- context [with_clock ?m ?s ?k] =>
        destruct (with_clock_cases m s k) as [[msg ->]|(w & c & _ & ->)] end;
        auto.
    + destruct (ticker (lp s)); simplify_eq; auto.
  - unfold step_fire_timer in H. repeat case_match; simplify_eq; auto.
  - unfold step_fire_ticker in H. repeat case_match; simplify_eq; auto.
  - injection H as <-. auto.
Qed.

(** X9: while the consumer does not receive, a tick that waits in [C] stays
    there and nothing else is delivered, whatever the loop, the timers and
    the owner do meanwhile: a slow consumer finds the oldest tick it has not
    received, and every later one is dropped. *)
Theorem slow_consumer_keeps_first_tick acts :
  forall s s' t,
    reachable s ->
    buf (C (st s)) = [t] ->
    Forall (fun a => a <> Receive) acts ->
    run acts s = Some s' ->
    buf (C (st s')) = [t] /\ delivered (history s') = delivered (history s).
Proof.
  unfold C. induction acts as [|a acts IH]; simpl; intros s s' t Hr Hb Hf H.
  - injection H as <-. auto.
  - destruct (step a s) as [s1|] eqn:E; [|discriminate].
    apply Forall_cons in Hf as [Ha Hf].
    destruct (step_keeps_waiting a s s1 t E Ha (reachable_ticks_ok s Hr) Hb)
      as [Hb1 Hd1].
    destruct (IH s1 s' t (reach_step a s s1 Hr E) Hb1 Hf H) as [Hb2 Hd2].
    split; [exact Hb2 | congruence].
Qed.

Lemma at_first_tick_waits : buf (C (st at_first_tick)) = [5000].
Proof. vm_compute. reflexivity. Qed.

Lemma slow_consumer_keeps_first_tick_witness :
  exists s',
    run second_fire at_first_tick = Some s' /\
    history s' = [EvDelivered 5000; EvDropped 12000] /\
    buf (C (st s')) = [5000] /\
    delivered (history s') = delivered (history at_first_tick).
Proof.
  eexists. split; [vm_compute; reflexivity|]. split; [vm_compute; reflexivity|].
  apply (slow_consumer_keeps_first_tick second_fire at_first_tick _ 5000).
  - exact (after_reachable _).
  - exact at_first_tick_waits.
  - unfold second_fire. repeat constructor; discriminate.
  - vm_compute. reflexivity.
Defined.

(** ** The loop, statement by statement *)

Lemma step_Select_Reset s nextStart rest :
  crashed s = None -> pc (lp s) = LSelect ->
  s_senders (reset (st s)) = nextStart :: rest ->
  step (Select CaseReset) s
  = Some (set_lp (set_pc (LResetStop nextStart))
            (set_st (set_reset (mkSync (s_closed (reset (st s))) rest)) s)).
Proof.
  intros Hc Hpc Hs. unfold step, step_select. rewrite Hc, Hpc, Hs. reflexivity.
Qed.

Lemma step_Select_Stop s :
  crashed s = None -> pc (lp s) = LSelect -> s_closed (stop (st s)) = true ->
  step (Select CaseStop) s = Some (set_lp (set_pc LDeferStop) s).
Proof.
  intros Hc Hpc Hs. unfold step, step_select. rewrite Hc, Hpc, Hs. reflexivity.
Qed.

Lemma step_Loop_ResetStop s nextStart :
  crashed s = None -> pc (lp s) = LResetStop nextStart ->
  step Loop s = Some (set_lp (set_pc (LResetArm nextStart)) (stopTickerTimer s)).
Proof.
  intros Hc Hpc. unfold step, step_loop. rewrite Hc, Hpc. reflexivity.
Qed.

Lemma step_Loop_DeferStop s :
  crashed s = None -> pc (lp s) = LDeferStop ->
  step Loop s = Some (set_lp (set_pc LDeferClose) (stopTickerTimer s)).
Proof.
  intros Hc Hpc. unfold step, step_loop. rewrite Hc, Hpc. reflexivity.
Qed.

Lemma step_Loop_DeferClose s :
  crashed s = None -> pc (lp s) = LDeferClose ->
  step Loop s
  = Some (if existsb is_parked (callbacks s)
          then crash "send on closed channel"
                 (set_lp (fun l => set_pc LExited (set_nextTickUpdated false l)) s)
          else set_lp (fun l => set_pc LExited (set_nextTickUpdated false l)) s).
Proof.
  intros Hc Hpc. unfold step, step_loop. rewrite Hc, Hpc. reflexivity.
Qed.

Lemma stopTickerTimer_tickers s :
  tickers (stopTickerTimer s)
  = match ticker (lp s) with
    | Some k => alter Ticker_Stop k (tickers s)
    | None => tickers s
    end.
Proof.
  unfold stopTickerTimer. simpl.
  destruct (resetTimer (lp s)); simpl; destruct (ticker (lp s)); reflexivity.
Qed.

Lemma arming_returns nextStart d c :
  d <> 0 ->
  exists w c',
    (t <- nextRun nextStart d ;; d' <- time_Until t ;; time_AfterFunc d') c
    = Ok (w, c').
Proof.
  intros Hd. destruct (nextRun_returns nextStart d c Hd) as (r & c1 & E).
  unfold bind at 1. rewrite E.
  unfold bind, time_Until, time_AfterFunc, time_Now, ret, bind. simpl. eauto.
Qed.

Lemma parked_exists (cs : list CbPc) i :
  cs !! i = Some CbParked -> existsb is_parked cs = true.
Proof.
  intros H. apply existsb_exists. exists CbParked. split; [|reflexivity].
  apply list_elem_of_In. exact (list_elem_of_lookup_2 _ _ _ H).
Qed.

(** X10: if a timer callback is parked on [nextTickUpdated] when the loop has
    taken the stop case, the deferred close of that channel makes the parked
    send panic: the program ends with "send on closed channel". *)
Theorem exit_with_parked_callback_panics s i :
  crashed s = None ->
  pc (lp s) = LDeferStop ->
  callbacks s !! i = Some CbParked ->
  exists s',
    run [Loop; Loop] s = Some s' /\
    crashed s' = Some "send on closed channel" /\
    (forall a, step a s' = None).
Proof.
  intros Hc Hpc Hi.
  destruct (stopTickerTimer_frame s) as (Ecb & Ecr & _ & _ & Epc & _).
  set (s1 := set_lp (set_pc LDeferClose) (stopTickerTimer s)).
  assert (Hc1 : crashed s1 = None) by (unfold s1; simpl; congruence).
  assert (Hp1 : existsb is_parked (callbacks s1) = true).
  { unfold s1. simpl. rewrite Ecb. exact (parked_exists _ _ Hi). }
  eexists. split.
  - unfold run. rewrite (step_Loop_DeferStop s Hc Hpc). fold s1.
    rewrite (step_Loop_DeferClose s1 Hc1 eq_refl), Hp1. reflexivity.
  - split; [reflexivity|]. intros a. unfold step. reflexivity.
Qed.

(** X11: in the older revision, whose [Reset] does not check the interval, a
    [Reset] with the interval zero and an anchor that is not in the future
    makes the loop panic in [nextRun] with a division by zero.  (The
    statements of the loop on this path are the same in both revisions.) *)
Theorem Rev0_Reset_zero_interval_panics s next :
  crashed s = None ->
  pc (lp s) = LSelect ->
  live s ->
  s_senders (reset (st s)) = [] ->
  ~ reading (clock s) 0 < next ->
  exists s',
    run [Select CaseReset; Loop; Loop] (state_of (Rev0.Reset next 0 s)) = Some s' /\
    crashed s' = Some "runtime error: integer divide by zero".
Proof.
  intros Hc Hpc [_ Hr] Hs Hp.
  unfold Rev0.Reset. simpl. rewrite Hr, Hs. simpl.
  set (s1 := set_st _ (set_st _ s)).
  set (s2 := set_lp (set_pc (LResetStop next))
               (set_st (set_reset (mkSync (s_closed (reset (st s1))) [])) s1)).
  set (s3 := set_lp (set_pc (LResetArm next)) (stopTickerTimer s2)).
  destruct (stopTickerTimer_frame s2) as (_ & Ecr & Ecl & _).
  assert (Hc3 : crashed s3 = None) by (unfold s3; simpl; rewrite Ecr; exact Hc).
  assert (Hi3 : interval (st s3) = 0) by (unfold s3; simpl; rewrite st_stopTickerTimer; reflexivity).
  assert (Hk3 : clock s3 = clock s) by (unfold s3; simpl; rewrite Ecl; reflexivity).
  assert (E : nextRun next 0 (clock s)
              = Panic "runtime error: integer divide by zero")
    by (rewrite nextRun_past_eq by exact Hp; reflexivity).
  eexists. split.
  - unfold run.
    rewrite (step_Select_Reset s1 next [] Hc Hpc eq_refl). fold s2.
    rewrite (step_Loop_ResetStop s2 next Hc eq_refl). fold s3.
    unfold step, step_loop. rewrite Hc3. simpl pc.
    unfold with_clock, bind at 1. rewrite Hi3, Hk3, E. reflexivity.
  - reflexivity.
Qed.

Lemma exit_with_parked_callback_panics_witness :
  pc (lp at_parked_exit) = LDeferStop /\
  callbacks at_parked_exit !! 0%nat = Some CbParked /\
  exists s',
    run [Loop; Loop] at_parked_exit = Some s' /\
    crashed s' = Some "send on closed channel" /\
    (forall a, step a s' = None).
Proof.
  assert (H1 : crashed at_parked_exit = None) by (vm_compute; reflexivity).
  assert (H2 : pc (lp at_parked_exit) = LDeferStop) by (vm_compute; reflexivity).
  assert (H3 : callbacks at_parked_exit !! 0%nat = Some CbParked)
    by (vm_compute; reflexivity).
  split; [exact H2|]. split; [exact H3|].
  exact (exit_with_parked_callback_panics at_parked_exit 0 H1 H2 H3).
Defined.

Lemma Rev0_Reset_zero_interval_panics_witness :
  exists s',
    run [Select CaseReset; Loop; Loop] (state_of (Rev0.Reset 0 0 at_armed)) = Some s' /\
    crashed s' = Some "runtime error: integer divide by zero".
Proof.
  apply (Rev0_Reset_zero_interval_panics at_armed 0).
  - vm_compute. reflexivity.
  - vm_compute. reflexivity.
  - split; vm_compute; reflexivity.
  - vm_compute. reflexivity.
  - vm_compute. intros H; discriminate H.
Defined.

(** ** Reset and Stop, seen through the loop *)

Lemma filter_armed_snoc (l : list Timer) w :
  (forall i tm, l !! i = Some tm -> t_state tm <> Armed) ->
  List.filter is_armed (l ++ [mkTimer w Armed]) = [mkTimer w Armed].
Proof.
  intros H. rewrite List.filter_app, none_armed; [reflexivity|].
  intros i tm Hi. specialize (H i tm Hi).
  unfold is_armed. destruct (t_state tm); congruence.
Qed.

(** X12: the reset case of the loop, run without any other goroutine taking
    a step in between.  From a reachable state in which the ticker is live,
    no other [Reset] is parked and the loop waits in its select, a [Reset]
    with a positive interval followed at once by the three steps of the loop
    (the receive, [stopTickerTimer] and [time.AfterFunc]) ends as follows:
    the one-shot timer and the ticker the loop held are stopped, one new
    one-shot timer is armed, which is then the only armed one, the new
    interval is stored and the loop waits in its select again.  (This is
    stated for this schedule only: a timer callback that takes steps in
    between can change the outcome.) *)
Theorem Reset_replaces_schedule s next d :
  reachable s ->
  crashed s = None ->
  pc (lp s) = LSelect ->
  live s ->
  s_senders (reset (st s)) = [] ->
  0 < d ->
  exists s',
    run [CallReset next d; Select CaseReset; Loop; Loop] s = Some s' /\
    crashed s' = None /\
    pc (lp s') = LSelect /\
    interval (st s') = d /\
    s_senders (reset (st s')) = [] /\
    resetTimer (lp s') = Some (length (timers s)) /\
    live_timers s' = 1%nat /\
    nextTick (lp s') = None /\
    ticker (lp s') = None /\
    (forall k tk, ticker (lp s) = Some k -> tickers s' !! k = Some tk ->
                  k_running tk = false).
Proof.
  intros Hreach Hc Hpc [_ Hr] Hs Hd.
  assert (E0 : step (CallReset next d) s = Some (state_of (Reset next d s)))
    by (unfold step; rewrite Hc; reflexivity).
  set (s1 := state_of (Reset next d s)) in *.
  assert (E1 : s1 = set_st (set_reset (mkSync false [next]))
                       (set_st (set_interval d) s)).
  { unfold s1, Reset. destruct (Z.leb_spec d 0); [lia|]. simpl.
    rewrite Hr, Hs. reflexivity. }
  assert (R1 : reachable s1) by exact (reach_step _ _ _ Hreach E0).
  assert (Hc1 : crashed s1 = None) by (rewrite E1; exact Hc).
  assert (Hpc1 : pc (lp s1) = LSelect) by (rewrite E1; exact Hpc).
  assert (Hs1 : s_senders (reset (st s1)) = [next]) by (rewrite E1; reflexivity).
  pose proof (step_Select_Reset s1 next [] Hc1 Hpc1 Hs1) as E2.
  set (s2 := set_lp (set_pc (LResetStop next)) _) in E2.
  assert (R2 : reachable s2) by exact (reach_step _ _ _ R1 E2).
  assert (Hc2 : crashed s2 = None) by exact Hc1.
  pose proof (step_Loop_ResetStop s2 next Hc2 eq_refl) as E3.
  set (s3 := set_lp (set_pc (LResetArm next)) (stopTickerTimer s2)) in E3.
  destruct (stopTickerTimer_frame s2) as (_ & Ecr & Ecl & _ & _ & _ & Ent & Etk & Elen).
  pose proof (stopTickerTimer_disarms s2 (reachable_timers_ok s2 R2)) as Hdis.
  assert (Hc3 : crashed s3 = None)
    by (change (crashed (stopTickerTimer s2) = None); rewrite Ecr; exact Hc2).
  assert (Hi3 : interval (st s3) = d).
  { unfold s3. simpl. rewrite st_stopTickerTimer. unfold s2. simpl.
    rewrite E1. reflexivity. }
  destruct (arming_returns next d (clock s3) ltac:(lia)) as (w & c' & Ew).
  eexists. split.
  - unfold run. rewrite E0, E2, E3.
    unfold step, step_loop. rewrite Hc3. simpl pc.
    unfold with_clock. rewrite Hi3, Ew. reflexivity.
  - simpl. rewrite Ecr, Ent, Etk, Elen, st_stopTickerTimer.
    split; [exact Hc2|]. split; [reflexivity|].
    split; [unfold s2; simpl; rewrite E1; reflexivity|].
    split; [unfold s2; simpl; reflexivity|].
    split; [unfold s2; simpl; rewrite E1; reflexivity|].
    split.
    { unfold live_timers. simpl. rewrite (filter_armed_snoc _ w Hdis). reflexivity. }
    split; [reflexivity|]. split; [reflexivity|].
    intros k tk Hk. rewrite stopTickerTimer_tickers.
    assert (Hk2 : ticker (lp s2) = Some k) by (unfold s2; simpl; rewrite E1; exact Hk).
    rewrite Hk2, list_lookup_alter_eq.
    destruct (tickers s2 !! k); [|discriminate]. simpl. intros [= <-]. reflexivity.
Qed.

(** X13: the stop case of the loop, run without any other goroutine taking
    a step in between.  From a reachable state in which the ticker is live,
    no [Reset] is parked on [reset], no timer callback is parked on
    [nextTickUpdated] and the loop waits in its select, [Stop] followed at
    once by the three steps of the loop (the stop case and the two deferred
    calls) ends as follows: the loop has returned without a panic, the
    one-shot timer and the ticker it held are stopped, no one-shot timer is
    armed, [nextTickUpdated] is nil and the output channel is as it was.
    (This is stated for this schedule only: a timer callback that takes
    steps in between can change the outcome.) *)
Theorem Stop_lets_loop_exit s :
  reachable s ->
  crashed s = None ->
  pc (lp s) = LSelect ->
  live s ->
  s_senders (reset (st s)) = [] ->
  existsb is_parked (callbacks s) = false ->
  exists s',
    run [CallStop; Select CaseStop; Loop; Loop] s = Some s' /\
    crashed s' = None /\
    pc (lp s') = LExited /\
    live_timers s' = 0%nat /\
    nextTick (lp s') = None /\
    ticker (lp s') = None /\
    nextTickUpdated (lp s') = false /\
    C (st s') = C (st s) /\
    (forall k tk, ticker (lp s) = Some k -> tickers s' !! k = Some tk ->
                  k_running tk = false).
Proof.
  intros Hreach Hc Hpc [Hst Hr] Hs Hpk.
  assert (E0 : step CallStop s = Some (state_of (Stop s)))
    by (unfold step; rewrite Hc; reflexivity).
  set (s1 := state_of (Stop s)) in *.
  assert (E1 : s1 = record_all []
                       (set_st (set_reset (mkSync true []))
                          (record EvStop (set_st (set_stop (mkSync true [])) s)))).
  { unfold s1, Stop, close, parked_panics. rewrite Hst. simpl.
    rewrite Hr, Hs. reflexivity. }
  assert (R1 : reachable s1) by exact (reach_step _ _ _ Hreach E0).
  assert (Hc1 : crashed s1 = None) by (rewrite E1; exact Hc).
  assert (Hpc1 : pc (lp s1) = LSelect) by (rewrite E1; exact Hpc).
  pose proof (step_Select_Stop s1 Hc1 Hpc1 ltac:(rewrite E1; reflexivity)) as E2.
  set (s2 := set_lp (set_pc LDeferStop) s1) in E2.
  assert (R2 : reachable s2) by exact (reach_step _ _ _ R1 E2).
  pose proof (step_Loop_DeferStop s2 Hc1 eq_refl) as E3.
  set (s3 := set_lp (set_pc LDeferClose) (stopTickerTimer s2)) in E3.
  assert (R3 : reachable s3) by exact (reach_step _ _ _ R2 E3).
  destruct (stopTickerTimer_frame s2) as (Ecb & Ecr & _ & _ & _ & _ & Ent & Etk & _).
  assert (Hc3 : crashed s3 = None)
    by (change (crashed (stopTickerTimer s2) = None); rewrite Ecr; exact Hc1).
  assert (Hpk3 : existsb is_parked (callbacks s3) = false).
  { unfold s3. simpl. rewrite Ecb. unfold s2. simpl. rewrite E1. exact Hpk. }
  pose proof (step_Loop_DeferClose s3 Hc3 eq_refl) as E4. rewrite Hpk3 in E4.
  set (s4 := set_lp _ s3) in E4.
  assert (R4 : reachable s4) by exact (reach_step _ _ _ R3 E4).
  exists s4. split; [unfold run; rewrite E0, E2, E3, E4; reflexivity|].
  split; [exact Hc3|]. split; [reflexivity|].
  split; [exact (exited_no_timer s4 R4 eq_refl)|].
  unfold s4, s3. simpl. rewrite Ent, Etk, st_stopTickerTimer.
  split; [reflexivity|]. split; [reflexivity|]. split; [reflexivity|].
  split; [unfold s2, C; simpl; rewrite E1; reflexivity|].
  intros k tk Hk. rewrite stopTickerTimer_tickers.
  assert (Hk2 : ticker (lp s2) = Some k) by (unfold s2; simpl; rewrite E1; exact Hk).
  rewrite Hk2, list_lookup_alter_eq.
  destruct (tickers s2 !! k); [|discriminate]. simpl. intros [= <-]. reflexivity.
Qed.

Lemma at_armed_running : crashed at_armed = None.
Proof. vm_compute. reflexivity. Qed.

Lemma at_armed_select : pc (lp at_armed) = LSelect.
Proof. vm_compute. reflexivity. Qed.

Lemma at_armed_live : live at_armed.
Proof. split; vm_compute; reflexivity. Qed.

Lemma Reset_replaces_schedule_witness :
  exists s',
    run [CallReset 7000 250; Select CaseReset; Loop; Loop] at_armed = Some s' /\
    crashed s' = None /\
    pc (lp s') = LSelect /\
    interval (st s') = 250 /\
    s_senders (reset (st s')) = [] /\
    resetTimer (lp s') = Some (length (timers at_armed)) /\
    live_timers s' = 1%nat /\
    nextTick (lp s') = None /\
    ticker (lp s') = None /\
    (forall k tk, ticker (lp at_armed) = Some k -> tickers s' !! k = Some tk ->
                  k_running tk = false).
Proof.
  apply (Reset_replaces_schedule at_armed 7000 250).
  - exact (after_reachable _).
  - exact at_armed_running.
  - exact at_armed_select.
  - exact at_armed_live.
  - vm_compute. reflexivity.
  - lia.
Defined.

Lemma Stop_lets_loop_exit_witness :
  exists s',
    run [CallStop; Select CaseStop; Loop; Loop] at_armed = Some s' /\
    crashed s' = None /\
    pc (lp s') = LExited /\
    live_timers s' = 0%nat /\
    nextTick (lp s') = None /\
    ticker (lp s') = None /\
    nextTickUpdated (lp s') = false /\
    C (st s') = C (st at_armed) /\
    (forall k tk, ticker (lp at_armed) = Some k -> tickers s' !! k = Some tk ->
                  k_running tk = false).
Proof.
  apply (Stop_lets_loop_exit at_armed).
  - exact (after_reachable _).
  - exact at_armed_running.
  - exact at_armed_select.
  - exact at_armed_live.
  - vm_compute. reflexivity.
  - vm_compute. reflexivity.
Defined.
